(** * NextRoundValue: value approximation at the end of a betting round

    A shallow embedding of [src/NeuralNetwork/next_round_value.py] and the
    properties of it that the specification states.

    Numbers.  The arrays of the program hold floating-point numbers.  They
    are modelled by exact rationals ([Q], compared with [==]); rounding is
    not modelled.  A division whose divisor is zero has no rational value:
    [fdiv] returns [None] there, and a computation that meets one stops
    with [None]; where the program would go on with an infinite or
    undefined number (a pot size of zero, a board without any legal hand),
    the model says nothing about the run.  [None] is also the result of a
    call that raises (a failed [assert], a shape mismatch).

    Arrays.  An array of shape [b,B,P,I] is a list of lists, outermost
    dimension first.  In-place updates of the fields of the object are
    explicit: every operation returns the new object.

    Collaborators.  The modules imported by the program ([Settings],
    [Game.card_tools], [Game.card_combinations], [NeuralNetwork.value_nn])
    are not part of the sources; they are the fields of the class
    [Collaborators], and everything below is stated for an arbitrary
    instance of it. *)

From Stdlib Require Import QArith Qminmax ZArith Lia Lqa.
From stdpp Require Import base option list gmap strings.

(** ** Numbers *)

Abbreviation T1 := (list Q).
Abbreviation T2 := (list (list Q)).
Abbreviation T3 := (list (list (list Q))).
Abbreviation T4 := (list (list (list (list Q)))).

(** [x / d] where the divisor is not zero. *)
Definition fdiv (x d : Q) : option Q :=
  if Qeq_bool d 0 then None else Some (x / d)%Q.

(** A boolean of a mask, as the number it is multiplied as. *)
Definition b2q (b : bool) : Q := if b then 1%Q else 0%Q.

(** [np.sum] along one row. *)
Definition qsum (l : T1) : Q := foldr Qplus 0%Q l.

(** [np.clip(x, lo, hi)], that is [minimum(maximum(x, lo), hi)]. *)
Definition clip (lo hi x : Q) : Q := Qmin (Qmax x lo) hi.

(** ** The collaborators *)

(** [approximate=...] of [ValueNn]. *)
Inductive approximate := root_nodes | leaf_nodes.

(** A constructed [ValueNn]: the round and the kind of model it loaded. *)
Record ValueNn := {
  nn_street : Z;
  nn_approximate : approximate
}.

(** A board: 0 to 5 card identifiers. *)
Abbreviation board := (list Z).

Class Collaborators := {
  (** [arguments.stack] *)
  stack : Q;
  (** [arguments.cfr_skip_iters] *)
  cfr_skip_iters : Z;
  (** [constants.hand_count] *)
  hand_count : nat;
  (** [card_tools.get_next_round_boards] *)
  get_next_round_boards : board → list board;
  (** [card_tools.convert_board_to_nn_feature] *)
  convert_board_to_nn_feature : board → T1;
  (** [card_tools.get_possible_hands_mask] *)
  get_possible_hands_mask : board → list bool;
  (** [card_combinations.count_next_boards_possible_boards] *)
  count_next_boards_possible_boards : Z → Z;
  (** whether [ValueNn(street, approximate, pretrained_weights=True)] finds
      its weights; the constructor raises when it does not *)
  pretrained_weights : Z → approximate → bool;
  (** [ValueNn.predict(inputs, out=...)]: the value written at row [r],
      column [c] of [out], for the input batch [inputs] of shape
      [b*B, P*I+1+F] *)
  predict : ValueNn → T2 → nat → nat → Q
}.

(** Modelled from the spec: [constants.players_count] is defined in
    [Settings/constants.py], which is not among the sources; the spec fixes
    the player count PC at 2, and [evaluate_ranges] itself addresses the
    players as index 0 and index 1. *)
Definition players_count : nat := 2.

(** ** The object *)

(** What [__init__] assigns. *)
Record Engine := {
  e_street : Z;
  e_next_street_nn : ValueNn;
  e_leaf_nodes_nn : option ValueNn;
  e_num_leaf_nodes_approximation_iters : Z
}.

(** The object after [init_computation]: the fields of [__init__] and those
    of [init_computation], [_init_root_approximation_vars] and
    [_init_leaf_approximation_vars]. *)
Record NextRoundValue := {
  street : Z;
  next_street_nn : ValueNn;
  leaf_nodes_nn : option ValueNn;
  num_leaf_nodes_approximation_iters : Z;
  iter : Z;
  current_board : board;
  next_boards : list board;
  next_boards_count : nat;
  pot_sizes : T1;                     (* shape [b,1] *)
  batch_size : nat;
  num_board_features : nat;
  next_round_inputs : T3;             (* [b,BC,PC*HC+1+F] *)
  next_round_values : T4;             (* [b,BC,PC,HC] *)
  next_boards_mask : list (list bool);   (* [BC,HC] *)
  root_nodes_sum_normalization : Q;
  cumulative_norm : T3;               (* [b,BC,PC] *)
  cumulative_cfvs : T4;               (* [b,BC,PC,HC] *)
  current_round_inputs : T3;          (* [b,1,PC*HC+1+F] *)
  current_round_values : T4;          (* [b,1,PC,HC] *)
  current_board_mask : list (list bool); (* [1,HC] *)
  leaf_nodes_sum_normalization : Q
}.

(** The fields of [__init__], read back from the object. *)
Definition engine_of (self : NextRoundValue) : Engine :=
  {| e_street := street self;
     e_next_street_nn := next_street_nn self;
     e_leaf_nodes_nn := leaf_nodes_nn self;
     e_num_leaf_nodes_approximation_iters :=
       num_leaf_nodes_approximation_iters self |}.

(** The [b,B,P,I] arrays that the object owns.  A method that returns one
    of them returns the array itself, not a copy: the caller holds a
    reference, and reads through it whatever the object holds then. *)
Inductive array_ref := cumulative_cfvs_ref | next_round_values_ref
  | current_round_values_ref.

Definition deref (self : NextRoundValue) (r : array_ref) : T4 :=
  match r with
  | cumulative_cfvs_ref => cumulative_cfvs self
  | next_round_values_ref => next_round_values self
  | current_round_values_ref => current_round_values self
  end.

(** ** Array operations *)

(** an elementwise operation on the innermost rows, or on the entries *)
Definition fmap2 {A B} (f : A → B) (l : list (list A)) : list (list B) :=
  fmap (M:=list) (fmap (M:=list) f) l.
Definition fmap3 {A B} (f : A → B) (l : list (list (list A)))
    : list (list (list B)) :=
  fmap (M:=list) (fmap2 f) l.

(** [np.zeros] *)
Definition zeros1 (n : nat) : T1 := replicate n 0%Q.
Definition zeros2 (n m : nat) : T2 := replicate n (zeros1 m).
Definition zeros3 (n m k : nat) : T3 := replicate n (zeros2 m k).
Definition zeros4 (n m k l : nat) : T4 := replicate n (zeros3 m k l).

(** [ranges.reshape([b,1,PC,HC])] then [np.repeat(ranges, BC, axis=1)] *)
Definition repeat_boards (BC : nat) (ranges : T3) : T4 :=
  (λ r, replicate BC r) <$> ranges.

(** one row of hands times one row of a mask *)
Definition mask_hands (m : list bool) (r : T1) : T1 :=
  zip_with (λ x b, x * b2q b)%Q r m.

(** [ranges *= mask.reshape([1,BC,1,HC])] *)
Definition apply_mask (mask : list (list bool)) (ranges : T4) : T4 :=
  (λ per_board : T3,
     zip_with (λ (r : T2) m, mask_hands m <$> r) per_board mask)
    <$> ranges.

(** [np.sum(ranges, axis=3)] *)
Definition sum_axis3 (t : T4) : T3 := fmap3 qsum t.

(** [values_norm = np.zeros_like(ranges_sum)], then
    [values_norm[:,:,0] = ranges_sum[:,:,1]] and
    [values_norm[:,:,1] = ranges_sum[:,:,0]], on one (state, board) *)
Definition swap_players (rs : T1) : T1 :=
  <[1%nat := default 0%Q (rs !! 0%nat)]>
    (<[0%nat := default 0%Q (rs !! 1%nat)]> (zeros1 (length rs))).

Definition swap_sums (rs : T3) : T3 := fmap2 swap_players rs.

(** [a[a == 0] = 1] *)
Definition replace_zero (x : Q) : Q := if Qeq_bool x 0 then 1%Q else x.
Definition replace_zeros (t : T3) : T3 := fmap3 replace_zero t.

(** [t /= np.expand_dims(d, axis=-1)]: every row of [t] by its entry
    of [d] *)
Definition div_row (row : T1) (s : Q) : option T1 :=
  mapM (λ x, fdiv x s) row.

Definition div_rows (t : T4) (d : T3) : option T4 :=
  mapM (λ '(tb, db),
    mapM (λ '(tp, dp),
      mapM (λ '(row, s), div_row row s) (zip tp dp)) (zip tb db)) (zip t d).

(** [nn_inputs[:,:,:PC*HC] = ranges.reshape([b,BC,PC*HC])] *)
Definition write_ranges `{Collaborators} (nn_inputs : T3) (ranges : T4)
    : T3 :=
  zip_with (zip_with (λ (row : T1) (r : T2),
    mjoin r ++ drop (players_count * hand_count) row)) nn_inputs ranges.

(** [neural_network.predict(nn_inputs.reshape([b*BC,-1]),
    out=nn_outputs.reshape([b*BC,-1]))]: the output buffer, of shape
    [b,BC,PC,HC], after the call *)
Definition predict_into `{Collaborators} (nn : ValueNn) (nn_inputs : T3)
    (b BC : nat) : T4 :=
  (λ s, (λ j, (λ p, (λ h,
      predict nn (mjoin nn_inputs) (s * BC + j) (p * hand_count + h))
    <$> seq 0 hand_count) <$> seq 0 players_count) <$> seq 0 BC)
    <$> seq 0 b.

(** [nn_outputs *= values_norm.reshape([b,BC,PC,1])] *)
Definition scale_rows (t : T4) (v : T3) : T4 :=
  zip_with (zip_with (zip_with (λ (row : T1) s, (λ x, x * s)%Q <$> row)))
    t v.

(** [arguments.stack / pot_sizes.reshape([b,1,1,1])] *)
Definition max_values `{Collaborators} (pots : T1) : option T1 :=
  mapM (fdiv stack) pots.

(** [np.clip(nn_outputs, -max_values, max_values)] *)
Definition clip_outputs (t : T4) (mv : T1) : T4 :=
  zip_with (λ (tb : T3) m, fmap3 (clip (- m) m) tb) t mv.

(** [np.sum(nn_outputs, axis=1)] *)
Definition add2 (a b : T2) : T2 := zip_with (zip_with Qplus) a b.
Definition sum_boards `{Collaborators} (tb : T3) : T2 :=
  foldr add2 (zeros2 players_count hand_count) tb.
Definition sum_axis1 `{Collaborators} (t : T4) : T3 := sum_boards <$> t.

(** [t * c] for a scalar [c] *)
Definition scale3 (t : T3) (c : Q) : T3 :=
  fmap3 (λ x, x * c)%Q t.

(** [a += b] *)
Definition add3 (a b : T3) : T3 := zip_with add2 a b.
Definition add4 (a b : T4) : T4 := zip_with add3 a b.

(** the shape [b,PC,HC] of the argument of [evaluate_ranges] *)
Definition has_shape3 (n m k : nat) (t : T3) : bool :=
  (length t =? n)%nat &&
  forallb (λ r : T2, (length r =? m)%nat &&
                forallb (λ row : T1, (length row =? k)%nat) r) t.

(** [row[...] = v] into a row of [n] entries; the assignment raises when
    [v] has another number of entries *)
Definition fit {A} (n : nat) (v : list A) : option (list A) :=
  if (length v =? n)%nat then Some v else None.

(** [mask.sum()] of a boolean row *)
Definition count_true (m : list bool) : nat :=
  length (filter (λ b, b = true) m).

(** ** [__init__] *)

(** [ValueNn(street, approximate=a, pretrained_weights=True)] *)
Definition new_ValueNn `{Collaborators} (st : Z) (a : approximate)
    : option ValueNn :=
  if pretrained_weights st a
  then Some {| nn_street := st; nn_approximate := a |}
  else None.

(** The root model is mandatory.  When the leaf model cannot be built, the
    [except] branch sets the leaf budget to 0. *)
Definition NextRoundValue_init `{Collaborators}
    (st skip_iterations leaf_nodes_iterations : Z) : option Engine :=
  nn ← new_ValueNn (st + 1) root_nodes;
  Some match new_ValueNn st leaf_nodes with
       | Some l =>
           {| e_street := st; e_next_street_nn := nn;
              e_leaf_nodes_nn := Some l;
              e_num_leaf_nodes_approximation_iters := leaf_nodes_iterations |}
       | None =>
           {| e_street := st; e_next_street_nn := nn;
              e_leaf_nodes_nn := None;
              e_num_leaf_nodes_approximation_iters := 0 |}
       end.

(** ** [init_computation] *)

(** [np.repeat(pot_sizes.reshape([-1,1]), batch_size, axis=1)
       .reshape([-1,1])] *)
Definition repeat_pot_sizes (pots : T1) (n : nat) : T1 :=
  pots ≫= replicate n.

(** [init_computation], with [_init_root_approximation_vars] and
    [_init_leaf_approximation_vars] inlined in the order of the calls.
    The board given to the feature probe, [np.zeros([])], is the empty
    board.  [1 / self.current_board_mask.sum()] is a division by the
    number of legal hands; with no legal hand NumPy goes on with an
    infinite constant, and the model stops. *)
Definition init_computation `{Collaborators} (e : Engine) (bd : board)
    (pots : T1) (n : nat) : option NextRoundValue :=
  let PC := players_count in
  let HC := hand_count in
  let nbs := get_next_round_boards bd in
  let BC := length nbs in
  let ps := repeat_pot_sizes pots n in
  let b := length ps in
  let F := length (convert_board_to_nn_feature []) in
  next_boards_features ←
    mapM (λ nb, fit F (convert_board_to_nn_feature nb)) nbs;
  next_mask ← mapM (λ nb, fit HC (get_possible_hands_mask nb)) nbs;
  next_pot ← mapM (λ p, fdiv p stack) ps;
  root_norm ←
    fdiv 1 (inject_Z (count_next_boards_possible_boards (e_street e)));
  cur_mask ← fit HC (get_possible_hands_mask bd);
  board_features ← fit F (convert_board_to_nn_feature bd);
  cur_pot ← mapM (λ p, fdiv p stack) ps;
  leaf_norm ← fdiv 1 (inject_Z (Z.of_nat (count_true cur_mask)));
  Some {|
    street := e_street e;
    next_street_nn := e_next_street_nn e;
    leaf_nodes_nn := e_leaf_nodes_nn e;
    num_leaf_nodes_approximation_iters :=
      e_num_leaf_nodes_approximation_iters e;
    iter := 0;
    current_board := bd;
    next_boards := nbs;
    next_boards_count := BC;
    pot_sizes := ps;
    batch_size := b;
    num_board_features := F;
    next_round_inputs :=
      (λ pf : Q, (λ bf : T1, zeros1 (HC * PC) ++ [pf] ++ bf)
                   <$> next_boards_features) <$> next_pot;
    next_round_values := zeros4 b BC PC HC;
    next_boards_mask := next_mask;
    root_nodes_sum_normalization := root_norm;
    cumulative_norm := zeros3 b BC PC;
    cumulative_cfvs := zeros4 b BC PC HC;
    current_round_inputs :=
      (λ pf : Q, [zeros1 (HC * PC) ++ [pf] ++ board_features]) <$> cur_pot;
    current_round_values := zeros4 b 1 PC HC;
    current_board_mask := [cur_mask];
    leaf_nodes_sum_normalization := leaf_norm
  |}.

(** ** [evaluate_ranges] *)

(** The test [self.iter > self.num_leaf_nodes_approximation_iters], on the
    counter after its increment. *)
Definition mode_of (self : NextRoundValue) (it : Z) : approximate :=
  if (num_leaf_nodes_approximation_iters self <? it)%Z
  then root_nodes else leaf_nodes.

(** The local variables that the two branches bind. *)
Record ModeVars := {
  BC : nat;
  neural_network : option ValueNn;
  nn_inputs : T3;
  mask : list (list bool);
  sum_normalization : Q
}.

Definition select (self : NextRoundValue) (m : approximate) : ModeVars :=
  match m with
  | root_nodes =>
      {| BC := next_boards_count self;
         neural_network := Some (next_street_nn self);
         nn_inputs := next_round_inputs self;
         mask := next_boards_mask self;
         sum_normalization := root_nodes_sum_normalization self |}
  | leaf_nodes =>
      {| BC := 1;
         neural_network := leaf_nodes_nn self;
         nn_inputs := current_round_inputs self;
         mask := current_board_mask self;
         sum_normalization := leaf_nodes_sum_normalization self |}
  end.

(** the buffer that [nn_outputs] names in each branch *)
Definition nn_outputs_ref (m : approximate) : array_ref :=
  match m with
  | root_nodes => next_round_values_ref
  | leaf_nodes => current_round_values_ref
  end.

(** Lines 130 to 133: the ranges copied for every board and masked. *)
Definition masked_ranges (msk : list (list bool)) (nb : nat) (ranges : T3)
    : T4 :=
  apply_mask msk (repeat_boards nb ranges).

(** Lines 135 to 142: the normalized ranges and [values_norm]. *)
Definition normalize_ranges (msk : list (list bool)) (nb : nat)
    (ranges : T3) : option (T4 * T3) :=
  let ranges := masked_ranges msk nb ranges in
  let ranges_sum := sum_axis3 ranges in
  let values_norm := swap_sums ranges_sum in
  let ranges_sum := replace_zeros ranges_sum in
  ranges ← div_rows ranges ranges_sum;
  Some (ranges, values_norm).

(** The object with its mutable fields replaced. *)
Definition update (self : NextRoundValue) (it : Z) (nri : T3) (nrv : T4)
    (cri : T3) (crv : T4) (cn : T3) (cc : T4) : NextRoundValue :=
  {| street := street self;
     next_street_nn := next_street_nn self;
     leaf_nodes_nn := leaf_nodes_nn self;
     num_leaf_nodes_approximation_iters :=
       num_leaf_nodes_approximation_iters self;
     iter := it;
     current_board := current_board self;
     next_boards := next_boards self;
     next_boards_count := next_boards_count self;
     pot_sizes := pot_sizes self;
     batch_size := batch_size self;
     num_board_features := num_board_features self;
     next_round_inputs := nri;
     next_round_values := nrv;
     next_boards_mask := next_boards_mask self;
     root_nodes_sum_normalization := root_nodes_sum_normalization self;
     cumulative_norm := cn;
     cumulative_cfvs := cc;
     current_round_inputs := cri;
     current_round_values := crv;
     current_board_mask := current_board_mask self;
     leaf_nodes_sum_normalization := leaf_nodes_sum_normalization self |}.

(** The test of line 159, on the counter after its increment. *)
Definition accumulates `{Collaborators} (self : NextRoundValue) (it : Z)
    : bool :=
  (cfr_skip_iters <? it)%Z &&
  (num_leaf_nodes_approximation_iters self <? it)%Z.

Definition evaluate_ranges `{Collaborators} (self : NextRoundValue)
    (ranges : T3) : option (NextRoundValue * T3) :=
  let PC := players_count in
  let HC := hand_count in
  let b := batch_size self in
  if negb (length ranges =? b)%nat then None else
  let it := (iter self + 1)%Z in
  let m := mode_of self it in
  let v := select self m in
  if negb (has_shape3 b PC HC ranges) then None else
  '(ranges, values_norm) ← normalize_ranges (mask v) (BC v) ranges;
  let inputs := write_ranges (nn_inputs v) ranges in
  nn ← neural_network v;
  let outputs := scale_rows (predict_into nn inputs b (BC v)) values_norm in
  max_v ← max_values (pot_sizes self);
  let clipped := clip_outputs outputs max_v in
  let current_board_values :=
    scale3 (sum_axis1 clipped) (sum_normalization v) in
  let acc := accumulates self it in
  Some (update self it
          (match m with root_nodes => inputs
                      | leaf_nodes => next_round_inputs self end)
          (match m with root_nodes => outputs
                      | leaf_nodes => next_round_values self end)
          (match m with root_nodes => current_round_inputs self
                      | leaf_nodes => inputs end)
          (match m with root_nodes => current_round_values self
                      | leaf_nodes => outputs end)
          (if acc then add3 (cumulative_norm self) values_norm
           else cumulative_norm self)
          (if acc then add4 (cumulative_cfvs self) clipped
           else cumulative_cfvs self),
        current_board_values).

(** [evaluate_ranges] once per iteration, in order. *)
Fixpoint evaluate_all `{Collaborators} (self : NextRoundValue)
    (rs : list T3) : option (NextRoundValue * list T3) :=
  match rs with
  | [] => Some (self, [])
  | r :: rs =>
      '(self, o) ← evaluate_ranges self r;
      '(self, os) ← evaluate_all self rs;
      Some (self, o :: os)
  end.

(** ** [get_stored_cfvs_of_all_next_round_boards] *)

(** Both fields are updated in place, and the array returned is the field
    [cumulative_cfvs] itself. *)
Definition get_stored_cfvs_of_all_next_round_boards
    (self : NextRoundValue) : option (NextRoundValue * array_ref) :=
  let norm := replace_zeros (cumulative_norm self) in
  cfvs ← div_rows (cumulative_cfvs self) norm;
  Some (update self (iter self) (next_round_inputs self)
          (next_round_values self) (current_round_inputs self)
          (current_round_values self) norm cfvs,
        cumulative_cfvs_ref).

(** ** After the setup

    What [init_computation] establishes about the fields that no call
    changes afterwards. *)
Record after_setup `{Collaborators} (self : NextRoundValue) : Prop := {
  setup_next_mask :
    Forall (λ m : list bool, length m = hand_count) (next_boards_mask self);
  setup_next_count :
    length (next_boards_mask self) = next_boards_count self;
  setup_current_mask :
    ∃ m, current_board_mask self = [m] ∧ length m = hand_count ∧
         count_true m ≠ 0%nat ∧
         leaf_nodes_sum_normalization self =
           (1 / inject_Z (Z.of_nat (count_true m)))%Q;
  setup_pot_sizes : length (pot_sizes self) = batch_size self;
  setup_next_inputs :
    length (next_round_inputs self) = batch_size self ∧
    Forall (λ tb : T2, length tb = next_boards_count self)
      (next_round_inputs self);
  setup_current_inputs :
    length (current_round_inputs self) = batch_size self ∧
    Forall (λ tb : T2, length tb = 1%nat) (current_round_inputs self)
}.

(** ** Reading one entry *)

Definition at2 (t : T2) (i j : nat) : option Q :=
  r ← t !! i; r !! j.
Definition at3 (t : T3) (i j k : nat) : option Q :=
  r ← t !! i; at2 r j k.
Definition at4 (t : T4) (i j k l : nat) : option Q :=
  r ← t !! i; at3 r j k l.

(** The entries of a row at the hands that a mask marks legal. *)
Definition legal_part (m : list bool) (row : T1) : T1 :=
  omap (λ '(x, b), if b : bool then Some x else None) (zip row m).

(** A row divided by its guarded sum. *)
Definition normalize_row (row : T1) : T1 :=
  (λ x, x / replace_zero (qsum row))%Q <$> row.

(** The values of entry [(p, h)] on the boards of state [s], and the
    number of values of a list that are not zero. *)
Definition board_values (t : T4) (s p h : nat) : T1 :=
  omap (λ b : T2, at2 b p h) (default [] (t !! s)).
Definition count_nonzero (xs : T1) : nat :=
  length (filter (λ x, Qeq_bool x 0 = false) xs).

(** ** The values of one call

    The arrays that a call of [evaluate_ranges] on [self] computes, as
    functions of [self] and of the ranges; the properties below are stated
    with them. *)

(** [t /= np.expand_dims(d, axis=-1)] when no entry of [d] is zero *)
Definition div_rows_total (t : T4) (d : T3) : T4 :=
  zip_with (zip_with (zip_with (λ (row : T1) s, (λ x, x / s)%Q <$> row)))
    t d.

Definition nonzero3 (d : T3) : Prop :=
  Forall (Forall (Forall (λ x : Q, ¬ (x == 0)%Q))) d.

Section call.
Context `{Collaborators}.
Variable self : NextRoundValue.
Variable ranges : T3.

(** the counter of the call, and its mode *)
Definition call_iter : Z := (iter self + 1)%Z.
Definition call_mode : approximate := mode_of self call_iter.
Definition call_vars : ModeVars := select self call_mode.

(** the masked ranges, their sums, the swapped sums and the normalized
    ranges *)
Definition call_masked : T4 :=
  masked_ranges (mask call_vars) (BC call_vars) ranges.
Definition call_ranges_sum : T3 := sum_axis3 call_masked.
Definition call_values_norm : T3 := swap_sums call_ranges_sum.
Definition call_normalized : T4 :=
  div_rows_total call_masked (replace_zeros call_ranges_sum).

(** the input buffer given to the model, the output buffer after the
    rescaling (line 149), the clipped outputs (line 154) *)
Definition call_inputs : T3 :=
  write_ranges (nn_inputs call_vars) call_normalized.
Definition call_outputs (nn : ValueNn) : T4 :=
  scale_rows (predict_into nn call_inputs (batch_size self) (BC call_vars))
    call_values_norm.
Definition call_clipped (nn : ValueNn) (max_v : T1) : T4 :=
  clip_outputs (call_outputs nn) max_v.

(** whether the call adds to the accumulator *)
Definition call_accumulates : bool := accumulates self call_iter.

(** the object after the call, and the array returned *)
Definition call_state (nn : ValueNn) (max_v : T1) : NextRoundValue :=
  update self call_iter
    (match call_mode with root_nodes => call_inputs
                        | leaf_nodes => next_round_inputs self end)
    (match call_mode with root_nodes => call_outputs nn
                        | leaf_nodes => next_round_values self end)
    (match call_mode with root_nodes => current_round_inputs self
                        | leaf_nodes => call_inputs end)
    (match call_mode with root_nodes => current_round_values self
                        | leaf_nodes => call_outputs nn end)
    (if call_accumulates
     then add3 (cumulative_norm self) call_values_norm
     else cumulative_norm self)
    (if call_accumulates
     then add4 (cumulative_cfvs self) (call_clipped nn max_v)
     else cumulative_cfvs self).
Definition call_return (nn : ValueNn) (max_v : T1) : T3 :=
  scale3 (sum_axis1 (call_clipped nn max_v)) (sum_normalization call_vars).
End call.

(** ** A small game, to run the definitions on

    Three cards 0, 1, 2; a hand is one card, so there are three hands and
    hand [h] holds card [h]; every round reveals one more card.  A hand is
    legal on a board that does not show its card.  The stack is 10 and the
    first iteration is skipped by the accumulator. *)

Definition toy_deck : list Z := [0; 1; 2]%Z.

Definition on_board (bd : board) (c : Z) : bool := bool_decide (c ∈ bd).

Definition toy_next_boards (bd : board) : list board :=
  (λ c, bd ++ [c]) <$> filter (λ c, c ∉ bd) toy_deck.

Definition toy_features (bd : board) : T1 :=
  (λ c, b2q (on_board bd c)) <$> toy_deck.

Definition toy_mask (bd : board) : list bool :=
  (λ c, negb (on_board bd c)) <$> toy_deck.

(** the boards of the next round that a player who holds one card can
    still see *)
Definition toy_count (st : Z) : Z := (3 - st)%Z.

(** A model that answers 7 for every hand. *)
Definition constant_model (nn : ValueNn) (inputs : T2) (r c : nat) : Q :=
  7%Q.

(** A model that answers 7 for the hands that are legal on the board its
    input row encodes, and 0 for the others. *)
Definition masked_model (nn : ValueNn) (inputs : T2) (r c : nat) : Q :=
  match inputs !! r with
  | Some row =>
      match row !! (players_count * 3 + 1 + c `mod` 3)%nat with
      | Some f => if Qeq_bool f 0 then 7%Q else 0%Q
      | None => 0%Q
      end
  | None => 0%Q
  end.

Definition toy : Collaborators := {|
  stack := 10%Q;
  cfr_skip_iters := 1%Z;
  hand_count := 3;
  get_next_round_boards := toy_next_boards;
  convert_board_to_nn_feature := toy_features;
  get_possible_hands_mask := toy_mask;
  count_next_boards_possible_boards := toy_count;
  pretrained_weights := λ _ _, true;
  predict := masked_model
|}.

(** The same game with the model that does not mask its output. *)
Definition toy_unmasked : Collaborators := {|
  stack := 10%Q;
  cfr_skip_iters := 1%Z;
  hand_count := 3;
  get_next_round_boards := toy_next_boards;
  convert_board_to_nn_feature := toy_features;
  get_possible_hands_mask := toy_mask;
  count_next_boards_possible_boards := toy_count;
  pretrained_weights := λ _ _, true;
  predict := constant_model
|}.

(** The same game, where the count of the boards of the next round leaves
    out the cards of both players. *)
Definition toy_both_hands : Collaborators := {|
  stack := 10%Q;
  cfr_skip_iters := 1%Z;
  hand_count := 3;
  get_next_round_boards := toy_next_boards;
  convert_board_to_nn_feature := toy_features;
  get_possible_hands_mask := toy_mask;
  count_next_boards_possible_boards := λ st, (2 - st)%Z;
  pretrained_weights := λ _ _, true;
  predict := masked_model
|}.

(** Both players hold every hand with probability 1/3. *)
Definition uniform_ranges : T3 := [[[1#3; 1#3; 1#3]; [1#3; 1#3; 1#3]]]%Q.

(** The first round (no card on the board), one state with pot size 5. *)
Definition toy_setup (C : Collaborators) (leaf_iters : Z)
    : option NextRoundValue :=
  e ← @NextRoundValue_init C 1 1 leaf_iters;
  @init_computation C e [] [5%Q] 1.

(** The object after [n] iterations on the uniform ranges. *)
Definition toy_after (C : Collaborators) (leaf_iters : Z) (n : nat)
    : option NextRoundValue :=
  self ← toy_setup C leaf_iters;
  fst <$> @evaluate_all C self (replicate n uniform_ranges).

(** An object without any state, where one is needed as a default. *)
Definition no_object : NextRoundValue :=
  {| street := 0; next_street_nn := {| nn_street := 0;
                                       nn_approximate := root_nodes |};
     leaf_nodes_nn := None; num_leaf_nodes_approximation_iters := 0;
     iter := 0; current_board := []; next_boards := [];
     next_boards_count := 0; pot_sizes := []; batch_size := 0;
     num_board_features := 0; next_round_inputs := [];
     next_round_values := []; next_boards_mask := [];
     root_nodes_sum_normalization := 0; cumulative_norm := [];
     cumulative_cfvs := []; current_round_inputs := [];
     current_round_values := []; current_board_mask := [];
     leaf_nodes_sum_normalization := 0 |}.

(** The object after [n] iterations, and what the next iteration
    returns. *)
Definition toy_object (C : Collaborators) (leaf_iters : Z) (n : nat)
    : NextRoundValue :=
  default no_object (toy_after C leaf_iters n).

Definition toy_return (C : Collaborators) (leaf_iters : Z) (n : nat) : T3 :=
  default [] (snd <$> @evaluate_ranges C (toy_object C leaf_iters n)
                        uniform_ranges).

(** Player 0 holds hand 0 for sure; player 1 holds every hand with
    probability 1/3. *)
Definition pure_ranges : T3 := [[[1; 0; 0]; [1#3; 1#3; 1#3]]]%Q.

(** What a call on given ranges returns after [n] iterations on the
    uniform ranges. *)
Definition toy_result (C : Collaborators) (leaf_iters : Z) (n : nat)
    (ranges : T3) : NextRoundValue * T3 :=
  default (no_object, [])
    (@evaluate_ranges C (toy_object C leaf_iters n) ranges).

(** ** The registry

    The code that runs when the module is loaded (lines 178 to 188): one
    object per round 1, 2 and 3, in a dict; a round whose construction
    raises is left out.  The messages printed are not modelled. *)

(** What that code reads besides the collaborators above. *)
Class Configuration := {
  (** [card_to_string.street_to_name] *)
  street_to_name : Z → string;
  (** [arguments.leaf_nodes_iterations], a dict keyed by the names of the
      rounds *)
  leaf_nodes_iterations : gmap string Z
}.

(** The body of the [try]: the lookup in the dict, which raises on a name
    that is not a key, then the constructor. *)
Definition construct `{Collaborators} `{Configuration} (st : Z)
    : option Engine :=
  let street_name := street_to_name st in
  leaf ← leaf_nodes_iterations !! street_name;
  NextRoundValue_init st cfr_skip_iters leaf.

(** One round of the loop. *)
Definition register `{Collaborators} `{Configuration}
    (d : gmap Z Engine) (st : Z) : gmap Z Engine :=
  match construct st with
  | Some e => <[st := e]> d
  | None => d
  end.

(** [for street in range(1,4)] *)
Definition NEXT_ROUND_VALUES `{Collaborators} `{Configuration}
    : gmap Z Engine :=
  foldl register ∅ [1; 2; 3]%Z.

(** [NEXT_ROUND_VALUES[street]]; [None] is the [KeyError]. *)
Definition get_next_round_value `{Collaborators} `{Configuration}
    (st : Z) : option Engine :=
  NEXT_ROUND_VALUES !! st.

(** The small game with root models for the rounds up to 3 and a leaf
    model for round 2 only, and a dict without the name of round 2: no
    object can be built for round 3 (no root model for round 4) nor for
    round 2 (no key), and the object of round 1 has no leaf model. *)
Definition toy_partial : Collaborators := {|
  stack := 10%Q;
  cfr_skip_iters := 1%Z;
  hand_count := 3;
  get_next_round_boards := toy_next_boards;
  convert_board_to_nn_feature := toy_features;
  get_possible_hands_mask := toy_mask;
  count_next_boards_possible_boards := toy_count;
  pretrained_weights := λ st a,
    match a with
    | root_nodes => (st <=? 3)%Z
    | leaf_nodes => (st =? 2)%Z
    end;
  predict := masked_model
|}.

Definition toy_configuration : Configuration := {|
  street_to_name := λ st,
    match st with
    | 1%Z => "preflop" | 2%Z => "flop" | 3%Z => "turn" | _ => "river"
    end%string;
  leaf_nodes_iterations :=
    <["preflop"%string := 4%Z]> (<["turn"%string := 2%Z]> ∅)
|}.

(** The fields that only [__init__] and [init_computation] assign. *)
Definition setup_fields (self : NextRoundValue) :=
  (engine_of self, current_board self, next_boards self,
   next_boards_count self, pot_sizes self, batch_size self,
   num_board_features self, next_boards_mask self,
   root_nodes_sum_normalization self, current_board_mask self,
   leaf_nodes_sum_normalization self).

(** What a row of the input buffers holds after the range slots. *)
Definition slots_after_ranges `{Collaborators} (self : NextRoundValue)
    : Prop :=
  (∀ s j (tb : T2) row,
     next_round_inputs self !! s = Some tb → tb !! j = Some row →
     ∃ pot nb,
       pot_sizes self !! s = Some pot ∧ next_boards self !! j = Some nb ∧
       drop (players_count * hand_count) row
         = (pot / stack)%Q :: convert_board_to_nn_feature nb) ∧
  (∀ s j (tb : T2) row,
     current_round_inputs self !! s = Some tb → tb !! j = Some row →
     ∃ pot,
       pot_sizes self !! s = Some pot ∧ j = 0%nat ∧
       drop (players_count * hand_count) row
         = (pot / stack)%Q :: convert_board_to_nn_feature
                                (current_board self)).

(** Ranges without negative entry. *)
Definition nonneg3 (t : T3) : Prop :=
  Forall (Forall (Forall (λ x : Q, (0 <= x)%Q))) t.

(** ** Proof steps *)

(** unfold the values of a call *)
Ltac unfold_call :=
  unfold call_return, call_clipped, call_outputs, call_inputs,
    call_normalized, call_values_norm, call_ranges_sum, call_masked,
    call_vars.

(** one step into a lookup in a nested array, and the way back *)
Ltac at_step :=
  match goal with
  | H : (?l !! ?i ≫= _) = Some _ |- _ =>
      let E := fresh "E" in
      destruct (l !! i) eqn:E; simpl in H; [|discriminate H]
  | H : zip_with _ _ _ !! _ = Some _ |- _ =>
      apply lookup_zip_with_Some in H as (? & ? & -> & ? & ?)
  | H : (_ <$> _) !! _ = Some _ |- _ =>
      apply list_lookup_fmap_Some in H as (? & -> & ?)
  | H : replicate _ _ !! _ = Some _ |- _ =>
      apply lookup_replicate_1 in H as [-> ?]
  | H : seq _ _ !! _ = Some _ |- _ =>
      apply lookup_seq in H as [-> ?]
  end.

Ltac at_close :=
  repeat match goal with
         | H : ?l !! ?i = Some _ |- context [?l !! ?i] => rewrite H; simpl
         end.

(** * Properties *)

(** ** Numbers *)

Lemma fdiv_Some x d : ¬ (d == 0)%Q → fdiv x d = Some (x / d)%Q.
Proof.
  intros Hd. unfold fdiv. destruct (Qeq_bool d 0) eqn:E; [|done].
  apply Qeq_bool_iff in E. contradiction.
Qed.

Lemma fdiv_Some_inv x d y :
  fdiv x d = Some y → ¬ (d == 0)%Q ∧ y = (x / d)%Q.
Proof.
  unfold fdiv. destruct (Qeq_bool d 0) eqn:E; [done|].
  intros [= <-]. split; [|done]. by apply Qeq_bool_neq.
Qed.

Lemma replace_zero_nonzero x : ¬ (replace_zero x == 0)%Q.
Proof.
  unfold replace_zero. destruct (Qeq_bool x 0) eqn:E.
  - intros E1. discriminate E1.
  - by apply Qeq_bool_neq.
Qed.


Lemma clip_bounds m x : (0 <= m)%Q → (- m <= clip (- m) m x <= m)%Q.
Proof.
  intros Hm. unfold clip.
  destruct (Q.min_spec (Qmax x (- m)) m) as [[? ->]|[? ->]];
    destruct (Q.max_spec x (- m)) as [[? E]|[? E]];
    rewrite ?E in *; lra.
Qed.

(** ** Lists *)

Lemma mapM_zip_with {A B C} (f : A * B → option C) (g : A → B → C)
    (l : list A) (k : list B) :
  (∀ i x y, l !! i = Some x → k !! i = Some y → f (x, y) = Some (g x y)) →
  mapM f (zip l k) = Some (zip_with g l k).
Proof.
  revert k. induction l as [|x l IH]; intros [|y k] Hf; try done.
  simpl. rewrite (Hf 0%nat x y) by done. simpl.
  rewrite IH; [done|]. intros i. apply (Hf (S i)).
Qed.

Lemma div_row_Some row s :
  ¬ (s == 0)%Q → div_row row s = Some ((λ x, x / s)%Q <$> row).
Proof.
  intros Hs. unfold div_row. apply mapM_Some_2.
  apply Forall2_fmap_r, Forall_Forall2_diag, Forall_forall.
  intros x _. by apply fdiv_Some.
Qed.

Lemma div_rows_Some t d :
  nonzero3 d → div_rows t d = Some (div_rows_total t d).
Proof.
  intros Hd. unfold div_rows, div_rows_total.
  apply mapM_zip_with. intros s tb db _ Hdb.
  apply mapM_zip_with. intros j tp dp _ Hdp.
  apply mapM_zip_with. intros p row x _ Hx.
  apply div_row_Some.
  eapply Forall_lookup_1 in Hdb; [|exact Hd].
  eapply Forall_lookup_1 in Hdp; [|exact Hdb].
  eapply Forall_lookup_1 in Hx; [|exact Hdp]. done.
Qed.

Lemma replace_zeros_nonzero d : nonzero3 (replace_zeros d).
Proof.
  unfold nonzero3, replace_zeros, fmap3, fmap2.
  repeat (apply Forall_fmap, Forall_forall; intros ? _; simpl).
  apply replace_zero_nonzero.
Qed.

(** ** What a call computes *)

Lemma normalize_ranges_eq msk nb ranges :
  normalize_ranges msk nb ranges =
  Some (div_rows_total (masked_ranges msk nb ranges)
          (replace_zeros (sum_axis3 (masked_ranges msk nb ranges))),
        swap_sums (sum_axis3 (masked_ranges msk nb ranges))).
Proof.
  unfold normalize_ranges.
  by rewrite div_rows_Some by apply replace_zeros_nonzero.
Qed.

Lemma has_shape3_length n m k t : has_shape3 n m k t = true → length t = n.
Proof.
  unfold has_shape3. intros [E _]%andb_prop. by apply Nat.eqb_eq.
Qed.

(** [evaluate_ranges] raises on ranges of another shape, on a leaf call of
    an object without leaf model and meets a zero divisor when a pot size
    is zero; on any other call it returns, with the values of
    [call_state] and [call_return]. *)
Lemma evaluate_ranges_eq `{Collaborators} self ranges :
  evaluate_ranges self ranges =
  if has_shape3 (batch_size self) players_count hand_count ranges
  then nn ← neural_network (call_vars self);
       max_v ← max_values (pot_sizes self);
       Some (call_state self ranges nn max_v,
             call_return self ranges nn max_v)
  else None.
Proof.
  unfold evaluate_ranges.
  destruct (has_shape3 _ _ _ ranges) eqn:Hs; simpl.
  - rewrite (has_shape3_length _ _ _ _ Hs), Nat.eqb_refl. simpl.
    rewrite normalize_ranges_eq. simpl. done.
  - by destruct (length ranges =? batch_size self)%nat.
Qed.

Lemma evaluate_ranges_Some `{Collaborators} self ranges self' out :
  evaluate_ranges self ranges = Some (self', out) →
  ∃ nn max_v,
    has_shape3 (batch_size self) players_count hand_count ranges = true ∧
    neural_network (call_vars self) = Some nn ∧
    max_values (pot_sizes self) = Some max_v ∧
    self' = call_state self ranges nn max_v ∧
    out = call_return self ranges nn max_v.
Proof.
  rewrite evaluate_ranges_eq.
  destruct (has_shape3 _ _ _ ranges); [|done].
  destruct (neural_network _) as [nn|]; [|done]. simpl.
  destruct (max_values _) as [mv|]; [|done]. simpl.
  intros [= <- <-]. by exists nn, mv.
Qed.

(** ** The accumulator *)

Lemma call_state_iter `{Collaborators} self ranges nn max_v :
  iter (call_state self ranges nn max_v) = (iter self + 1)%Z.
Proof. done. Qed.

Lemma accumulates_true `{Collaborators} self it :
  accumulates self it = true ↔
  (cfr_skip_iters < it)%Z ∧ (num_leaf_nodes_approximation_iters self < it)%Z.
Proof. unfold accumulates. rewrite andb_true_iff, !Z.ltb_lt. done. Qed.

Lemma accumulates_false `{Collaborators} self it :
  accumulates self it = false ↔
  (it ≤ cfr_skip_iters)%Z ∨ (it ≤ num_leaf_nodes_approximation_iters self)%Z.
Proof. unfold accumulates. rewrite andb_false_iff, !Z.ltb_ge. done. Qed.

Lemma mode_of_root self it :
  mode_of self it = root_nodes ↔
  (num_leaf_nodes_approximation_iters self < it)%Z.
Proof.
  unfold mode_of. destruct (Z.ltb_spec (num_leaf_nodes_approximation_iters self) it);
    split; (done || lia).
Qed.

Lemma mode_of_leaf self it :
  mode_of self it = leaf_nodes ↔
  (it ≤ num_leaf_nodes_approximation_iters self)%Z.
Proof.
  unfold mode_of. destruct (Z.ltb_spec (num_leaf_nodes_approximation_iters self) it);
    split; (done || lia).
Qed.

Lemma evaluate_ranges_accumulator `{Collaborators} self ranges self' out :
  evaluate_ranges self ranges = Some (self', out) →
  accumulates self (iter self') = false →
  cumulative_cfvs self' = cumulative_cfvs self ∧
  cumulative_norm self' = cumulative_norm self.
Proof.
  intros (nn & mv & _ & _ & _ & -> & _)%evaluate_ranges_Some.
  rewrite call_state_iter. simpl. unfold call_accumulates, call_iter.
  by intros ->.
Qed.

(** C7.  A call whose counter is at most the skip threshold, or at most
    the leaf budget, leaves [cumulative_cfvs] and [cumulative_norm] as they
    were; hence a call that changes one of them has a counter above both
    thresholds. *)
Theorem accumulator_frame `{Collaborators} self ranges self' out :
  evaluate_ranges self ranges = Some (self', out) →
  ((iter self' ≤ cfr_skip_iters)%Z ∨
   (iter self' ≤ num_leaf_nodes_approximation_iters self)%Z →
   cumulative_cfvs self' = cumulative_cfvs self ∧
   cumulative_norm self' = cumulative_norm self) ∧
  (cumulative_cfvs self' ≠ cumulative_cfvs self ∨
   cumulative_norm self' ≠ cumulative_norm self →
   (cfr_skip_iters < iter self')%Z ∧
   (num_leaf_nodes_approximation_iters self < iter self')%Z).
Proof.
  intros Hcall.
  pose proof (evaluate_ranges_accumulator _ _ _ _ Hcall) as Hframe.
  destruct (accumulates self (iter self')) eqn:E.
  - apply accumulates_true in E. split; [lia|done].
  - destruct (Hframe eq_refl) as [-> ->]. split; [done|].
    intros [?|?]; done.
Qed.

Lemma accumulator_frame_witness :
  @evaluate_ranges toy (toy_object toy 0 0) uniform_ranges =
    Some (toy_object toy 0 1, toy_return toy 0 0) ∧
  (iter (toy_object toy 0 1) ≤ @cfr_skip_iters toy)%Z ∧
  cumulative_cfvs (toy_object toy 0 1) = cumulative_cfvs (toy_object toy 0 0) ∧
  cumulative_norm (toy_object toy 0 1) = cumulative_norm (toy_object toy 0 0).
Proof.
  assert (@evaluate_ranges toy (toy_object toy 0 0) uniform_ranges =
            Some (toy_object toy 0 1, toy_return toy 0 0)) as Hcall
    by (vm_compute; reflexivity).
  assert (iter (toy_object toy 0 1) ≤ @cfr_skip_iters toy)%Z as Hit
    by (vm_compute; discriminate).
  split; [exact Hcall|]. split; [exact Hit|].
  apply (@accumulator_frame toy _ _ _ _ Hcall). left. exact Hit.
Defined.

(** C1, as amended.  On a call whose counter is above the skip threshold
    and above the leaf budget, the output buffer of the root mode holds the
    rescaled model output; what is added to [cumulative_cfvs] is that
    buffer clipped to plus or minus stack / pot size, before the sum over
    the boards, and what is added to [cumulative_norm] is the swapped sums;
    the array returned is the sum over the boards of the same clipped
    values, times the normalization constant. *)
Theorem accumulated_values_are_clipped `{Collaborators} self ranges self' out :
  evaluate_ranges self ranges = Some (self', out) →
  (cfr_skip_iters < iter self')%Z →
  (num_leaf_nodes_approximation_iters self < iter self')%Z →
  ∃ max_v,
    max_values (pot_sizes self) = Some max_v ∧
    next_round_values self' =
      scale_rows (predict_into (next_street_nn self) (next_round_inputs self')
                    (batch_size self) (next_boards_count self))
        (call_values_norm self ranges) ∧
    cumulative_cfvs self' =
      add4 (cumulative_cfvs self)
        (clip_outputs (next_round_values self') max_v) ∧
    cumulative_norm self' =
      add3 (cumulative_norm self) (call_values_norm self ranges) ∧
    out = scale3 (sum_axis1 (clip_outputs (next_round_values self') max_v))
            (root_nodes_sum_normalization self).
Proof.
  intros (nn & mv & _ & Hnn & Hmv & -> & ->)%evaluate_ranges_Some.
  rewrite call_state_iter. intros Hskip Hleaf. exists mv.
  assert (call_mode self = root_nodes) as Hm by by apply mode_of_root.
  assert (call_accumulates self = true) as Ha by by apply accumulates_true.
  unfold call_vars in *. simpl. rewrite Ha, Hm in *. simpl in *.
  injection Hnn as <-.
  unfold call_return, call_clipped, call_outputs, call_inputs, call_vars.
  rewrite Hm. done.
Qed.

Lemma accumulated_values_are_clipped_witness :
  @evaluate_ranges toy (toy_object toy 0 1) uniform_ranges =
    Some (toy_object toy 0 2, toy_return toy 0 1) ∧
  (@cfr_skip_iters toy < iter (toy_object toy 0 2))%Z ∧
  (num_leaf_nodes_approximation_iters (toy_object toy 0 1)
   < iter (toy_object toy 0 2))%Z ∧
  ∃ max_v,
    @max_values toy (pot_sizes (toy_object toy 0 1)) = Some max_v ∧
    next_round_values (toy_object toy 0 2) =
      scale_rows (@predict_into toy (next_street_nn (toy_object toy 0 1))
                    (next_round_inputs (toy_object toy 0 2))
                    (batch_size (toy_object toy 0 1))
                    (next_boards_count (toy_object toy 0 1)))
        (call_values_norm (toy_object toy 0 1) uniform_ranges) ∧
    cumulative_cfvs (toy_object toy 0 2) =
      add4 (cumulative_cfvs (toy_object toy 0 1))
        (clip_outputs (next_round_values (toy_object toy 0 2)) max_v) ∧
    cumulative_norm (toy_object toy 0 2) =
      add3 (cumulative_norm (toy_object toy 0 1))
        (call_values_norm (toy_object toy 0 1) uniform_ranges) ∧
    toy_return toy 0 1 =
      scale3 (@sum_axis1 toy
                (clip_outputs (next_round_values (toy_object toy 0 2)) max_v))
        (root_nodes_sum_normalization (toy_object toy 0 1)).
Proof.
  assert (@evaluate_ranges toy (toy_object toy 0 1) uniform_ranges =
            Some (toy_object toy 0 2, toy_return toy 0 1)) as Hcall
    by (vm_compute; reflexivity).
  assert (@cfr_skip_iters toy < iter (toy_object toy 0 2))%Z as Hskip
    by (vm_compute; reflexivity).
  assert (num_leaf_nodes_approximation_iters (toy_object toy 0 1)
          < iter (toy_object toy 0 2))%Z as Hleaf
    by (vm_compute; reflexivity).
  split; [exact Hcall|]. split; [exact Hskip|]. split; [exact Hleaf|].
  exact (@accumulated_values_are_clipped toy _ _ _ _ Hcall Hskip Hleaf).
Defined.

(** C1 as stated fails.  Second iteration of the small game (counter 2,
    skip threshold 1, leaf budget 0): on the board that shows card 0, hand
    1 of player 0 has the rescaled output 126/27, above the bound
    10/5 = stack / pot size; the accumulator, zero before the call, holds
    10/5 after it and not 126/27. *)
Lemma preclip_output_not_accumulated :
  @evaluate_ranges toy (toy_object toy 0 1) uniform_ranges =
    Some (toy_object toy 0 2, toy_return toy 0 1) ∧
  (@cfr_skip_iters toy < iter (toy_object toy 0 2))%Z ∧
  (num_leaf_nodes_approximation_iters (toy_object toy 0 1)
   < iter (toy_object toy 0 2))%Z ∧
  at4 (next_round_values (toy_object toy 0 2)) 0 0 0 1 = Some (126 # 27)%Q ∧
  at4 (cumulative_cfvs (toy_object toy 0 1)) 0 0 0 1 = Some 0%Q ∧
  at4 (cumulative_cfvs (toy_object toy 0 2)) 0 0 0 1 = Some (10 # 5)%Q ∧
  ¬ (10 # 5 == 0 + (126 # 27))%Q.
Proof.
  repeat split; try (vm_compute; reflexivity).
  vm_compute. discriminate.
Qed.

(** ** The mode of a call *)

Lemma evaluate_ranges_budget `{Collaborators} self ranges self' out :
  evaluate_ranges self ranges = Some (self', out) →
  iter self' = (iter self + 1)%Z ∧
  num_leaf_nodes_approximation_iters self' =
    num_leaf_nodes_approximation_iters self.
Proof.
  by intros (nn & mv & _ & _ & _ & -> & _)%evaluate_ranges_Some.
Qed.

Lemma evaluate_all_budget `{Collaborators} rs : ∀ self self' outs,
  evaluate_all self rs = Some (self', outs) →
  iter self' = (iter self + Z.of_nat (length rs))%Z ∧
  num_leaf_nodes_approximation_iters self' =
    num_leaf_nodes_approximation_iters self.
Proof.
  induction rs as [|r rs IH]; intros self self' outs; simpl.
  - intros [= <- _]. split; [lia|done].
  - destruct (evaluate_ranges self r) as [[self1 o]|] eqn:E1; [|done].
    simpl. destruct (evaluate_all self1 rs) as [[self2 os]|] eqn:E2; [|done].
    simpl. intros [= <- _].
    apply IH in E2 as [-> ->].
    apply evaluate_ranges_budget in E1 as [-> ->]. split; [lia|done].
Qed.

(** C3.  A completed call increments the counter.  When the incremented
    counter is at most the leaf budget, the call runs the leaf model on the
    leaf buffers with one board, the mask of the current board and the leaf
    normalization constant, and leaves the root buffers as they were; when
    it is above the budget, the call runs the root model on the root
    buffers with all next boards, their masks and the root normalization
    constant, and leaves the leaf buffers as they were.  After a call in
    root mode, whatever the number of further calls, the next call is in
    root mode. *)
Theorem mode_selection `{Collaborators} self ranges self' out :
  evaluate_ranges self ranges = Some (self', out) →
  iter self' = (iter self + 1)%Z ∧
  ((iter self' ≤ num_leaf_nodes_approximation_iters self)%Z →
   let m := masked_ranges (current_board_mask self) 1 ranges in
   ∃ nn max_v,
     leaf_nodes_nn self = Some nn ∧
     max_values (pot_sizes self) = Some max_v ∧
     current_round_inputs self' =
       write_ranges (current_round_inputs self)
         (div_rows_total m (replace_zeros (sum_axis3 m))) ∧
     current_round_values self' =
       scale_rows
         (predict_into nn (current_round_inputs self') (batch_size self) 1)
         (swap_sums (sum_axis3 m)) ∧
     out = scale3 (sum_axis1 (clip_outputs (current_round_values self') max_v))
             (leaf_nodes_sum_normalization self) ∧
     next_round_inputs self' = next_round_inputs self ∧
     next_round_values self' = next_round_values self) ∧
  ((num_leaf_nodes_approximation_iters self < iter self')%Z →
   let m := masked_ranges (next_boards_mask self) (next_boards_count self)
              ranges in
   ∃ max_v,
     max_values (pot_sizes self) = Some max_v ∧
     next_round_inputs self' =
       write_ranges (next_round_inputs self)
         (div_rows_total m (replace_zeros (sum_axis3 m))) ∧
     next_round_values self' =
       scale_rows
         (predict_into (next_street_nn self) (next_round_inputs self')
            (batch_size self) (next_boards_count self))
         (swap_sums (sum_axis3 m)) ∧
     out = scale3 (sum_axis1 (clip_outputs (next_round_values self') max_v))
             (root_nodes_sum_normalization self) ∧
     current_round_inputs self' = current_round_inputs self ∧
     current_round_values self' = current_round_values self) ∧
  ((num_leaf_nodes_approximation_iters self < iter self')%Z →
   ∀ rs self'' outs,
     evaluate_all self' rs = Some (self'', outs) →
     call_mode self'' = root_nodes).
Proof.
  intros Hcall. pose proof (evaluate_ranges_budget _ _ _ _ Hcall) as [Hit Hb].
  apply evaluate_ranges_Some in Hcall as (nn & mv & _ & Hnn & Hmv & -> & ->).
  split; [done|]. rewrite call_state_iter.
  unfold call_return, call_clipped, call_outputs, call_inputs,
    call_normalized, call_values_norm, call_ranges_sum, call_masked.
  unfold call_vars in *. split; [|split].
  - intros Hle. apply mode_of_leaf in Hle. fold (call_iter self) in Hle.
    fold (call_mode self) in Hle. simpl. rewrite Hle in *. simpl in *.
    exists nn, mv. unfold_call. by rewrite Hle.
  - intros Hlt. apply mode_of_root in Hlt. fold (call_iter self) in Hlt.
    fold (call_mode self) in Hlt. simpl. rewrite Hlt in *. simpl in *.
    injection Hnn as <-. exists mv. unfold_call. by rewrite Hlt.
  - intros Hlt rs self'' outs Hall.
    apply evaluate_all_budget in Hall as [Hit' Hb'].
    apply mode_of_root. unfold call_iter. rewrite Hit', Hb', Hit, Hb. lia.
Qed.

Lemma mode_selection_witness :
  @evaluate_ranges toy (toy_object toy 1 1) uniform_ranges =
    Some (toy_object toy 1 2, toy_return toy 1 1) ∧
  iter (toy_object toy 1 2) = (iter (toy_object toy 1 1) + 1)%Z ∧
  (num_leaf_nodes_approximation_iters (toy_object toy 1 1)
   < iter (toy_object toy 1 2))%Z ∧
  current_round_values (toy_object toy 1 2) =
    current_round_values (toy_object toy 1 1) ∧
  call_mode (toy_object toy 1 4) = root_nodes.
Proof.
  assert (@evaluate_ranges toy (toy_object toy 1 1) uniform_ranges =
            Some (toy_object toy 1 2, toy_return toy 1 1)) as Hcall
    by (vm_compute; reflexivity).
  assert (num_leaf_nodes_approximation_iters (toy_object toy 1 1)
          < iter (toy_object toy 1 2))%Z as Hroot
    by (vm_compute; reflexivity).
  destruct (@mode_selection toy _ _ _ _ Hcall) as (Hit & _ & Hbuf & Hmono).
  destruct (Hbuf Hroot) as (mv & _ & _ & _ & _ & _ & Hvalues).
  split; [exact Hcall|]. split; [exact Hit|]. split; [exact Hroot|].
  split; [exact Hvalues|].
  apply (Hmono Hroot (replicate 2 uniform_ranges) _
           (default [] (snd <$> @evaluate_all toy (toy_object toy 1 2)
                                  (replicate 2 uniform_ranges)))).
  vm_compute. reflexivity.
Defined.

(** ** The setup *)

Lemma length_bind_replicate {A} (l : list A) n :
  length (l ≫= replicate n) = (length l * n)%nat.
Proof.
  induction l as [|x l IH]; [done|].
  rewrite bind_cons, length_app, length_replicate, IH. simpl. lia.
Qed.

Lemma lookup_bind_replicate {A} (l : list A) n i j :
  (j < n)%nat → (l ≫= replicate n) !! (i * n + j)%nat = l !! i.
Proof.
  intros Hj. revert i. induction l as [|x l IH]; intros i.
  - by rewrite !lookup_nil.
  - rewrite bind_cons. destruct i as [|i]; simpl.
    + rewrite lookup_app_l by (rewrite length_replicate; lia).
      by apply lookup_replicate_2.
    + rewrite lookup_app_r by (rewrite length_replicate; lia).
      rewrite length_replicate, <- IH. f_equal. lia.
Qed.

Lemma fit_Some {A} n (v w : list A) :
  fit n v = Some w → w = v ∧ length v = n.
Proof.
  unfold fit. destruct (Nat.eqb_spec (length v) n); [|done].
  by intros [= <-].
Qed.

(** The fields after a setup that completes. *)
Lemma init_computation_Some `{Collaborators} e bd pots n self :
  init_computation e bd pots n = Some self →
  let ps := repeat_pot_sizes pots n in
  let nbs := get_next_round_boards bd in
  let F := length (convert_board_to_nn_feature []) in
  ∃ (feats : T2) (masks : list (list bool)) (npot : T1) (rnorm : Q)
    (cmask : list bool) (bfeat cpot : T1) (lnorm : Q),
    mapM (λ nb, fit F (convert_board_to_nn_feature nb)) nbs = Some feats ∧
    mapM (λ nb, fit hand_count (get_possible_hands_mask nb)) nbs
      = Some masks ∧
    mapM (λ p, fdiv p stack) ps = Some npot ∧
    fdiv 1 (inject_Z (count_next_boards_possible_boards (e_street e)))
      = Some rnorm ∧
    fit hand_count (get_possible_hands_mask bd) = Some cmask ∧
    fit F (convert_board_to_nn_feature bd) = Some bfeat ∧
    mapM (λ p, fdiv p stack) ps = Some cpot ∧
    fdiv 1 (inject_Z (Z.of_nat (count_true cmask))) = Some lnorm ∧
    self = {|
      street := e_street e;
      next_street_nn := e_next_street_nn e;
      leaf_nodes_nn := e_leaf_nodes_nn e;
      num_leaf_nodes_approximation_iters :=
        e_num_leaf_nodes_approximation_iters e;
      iter := 0;
      current_board := bd;
      next_boards := nbs;
      next_boards_count := length nbs;
      pot_sizes := ps;
      batch_size := length ps;
      num_board_features := F;
      next_round_inputs :=
        (λ pf : Q, (λ bf : T1, zeros1 (hand_count * players_count)
                                 ++ [pf] ++ bf) <$> feats) <$> npot;
      next_round_values :=
        zeros4 (length ps) (length nbs) players_count hand_count;
      next_boards_mask := masks;
      root_nodes_sum_normalization := rnorm;
      cumulative_norm := zeros3 (length ps) (length nbs) players_count;
      cumulative_cfvs :=
        zeros4 (length ps) (length nbs) players_count hand_count;
      current_round_inputs :=
        (λ pf : Q, [zeros1 (hand_count * players_count) ++ [pf] ++ bfeat])
          <$> cpot;
      current_round_values := zeros4 (length ps) 1 players_count hand_count;
      current_board_mask := [cmask];
      leaf_nodes_sum_normalization := lnorm
    |}.
Proof.
  unfold init_computation. intros Hinit.
  repeat match type of Hinit with
         | (?x ≫= _) = Some _ =>
             destruct x eqn:?; simpl in Hinit; [|discriminate Hinit]
         end.
  injection Hinit as <-. simpl. eauto 20.
Qed.

Lemma init_computation_after_setup `{Collaborators} e bd pots n self :
  init_computation e bd pots n = Some self → after_setup self.
Proof.
  intros (feats & masks & npot & rnorm & cmask & bfeat & cpot & lnorm
          & Hfeats & Hmasks & Hnpot & _ & Hcmask & _ & Hcpot & Hlnorm & ->)
    %init_computation_Some.
  apply length_mapM in Hnpot, Hcpot, Hfeats.
  split; simpl.
  - apply mapM_Some_1 in Hmasks. apply Forall_forall. intros m Hm.
    apply list_elem_of_lookup in Hm as [i Hi].
    destruct (Forall2_lookup_r _ _ _ _ _ Hmasks Hi) as (nb & _ & Hfit).
    by apply fit_Some in Hfit as [-> ?].
  - symmetry. by eapply length_mapM.
  - exists cmask. apply fit_Some in Hcmask as [-> Hlen].
    apply fdiv_Some_inv in Hlnorm as [Hnz ->].
    split; [done|]. split; [done|]. split; [|done].
    intros E. apply Hnz. by rewrite E.
  - done.
  - rewrite length_fmap. split; [done|].
    apply Forall_fmap, Forall_forall. intros pf _. simpl.
    by rewrite length_fmap.
  - rewrite length_fmap. split; [done|].
    apply Forall_fmap, Forall_forall. by intros pf _.
Qed.

(** C9.  After [init_computation(board, pot_sizes, batch_size)] the field
    [batch_size] is the number of pot sizes times the argument
    [batch_size]; pot size [i] fills the slots [i * batch_size] to
    [i * batch_size + batch_size - 1]; every buffer has that many
    states; and [evaluate_ranges] raises on ranges with another number of
    states. *)
Theorem batch_size_is_product `{Collaborators} e bd pots n self :
  init_computation e bd pots n = Some self →
  batch_size self = (length pots * n)%nat ∧
  pot_sizes self = pots ≫= replicate n ∧
  (∀ i j, (j < n)%nat → pot_sizes self !! (i * n + j)%nat = pots !! i) ∧
  length (pot_sizes self) = batch_size self ∧
  length (next_round_inputs self) = batch_size self ∧
  length (next_round_values self) = batch_size self ∧
  length (cumulative_norm self) = batch_size self ∧
  length (cumulative_cfvs self) = batch_size self ∧
  length (current_round_inputs self) = batch_size self ∧
  length (current_round_values self) = batch_size self ∧
  (∀ ranges, length ranges ≠ batch_size self →
             evaluate_ranges self ranges = None).
Proof.
  intros Hinit.
  pose proof Hinit as
    (feats & masks & npot & rnorm & cmask & bfeat & cpot & lnorm
     & _ & _ & Hnpot & _ & _ & _ & Hcpot & _ & ->)%init_computation_Some.
  apply length_mapM in Hnpot, Hcpot. simpl.
  unfold zeros4, zeros3, repeat_pot_sizes in *.
  rewrite !length_fmap, !length_replicate, <- Hnpot, <- Hcpot.
  rewrite length_bind_replicate.
  repeat split; try done.
  - intros i j Hj. by apply lookup_bind_replicate.
  - intros ranges Hlen. unfold evaluate_ranges. simpl.
    rewrite ?length_bind_replicate.
    by destruct (Nat.eqb_spec (length ranges) (length pots * n)).
Qed.

Lemma batch_size_is_product_witness :
  @init_computation toy (engine_of (toy_object toy 0 0)) [] [5; 6]%Q 3
    = Some (default no_object
              (@init_computation toy (engine_of (toy_object toy 0 0)) []
                 [5; 6]%Q 3)) ∧
  batch_size (default no_object
                (@init_computation toy (engine_of (toy_object toy 0 0)) []
                   [5; 6]%Q 3)) = 6%nat.
Proof.
  assert (@init_computation toy (engine_of (toy_object toy 0 0)) []
            [5; 6]%Q 3
          = Some (default no_object
                    (@init_computation toy (engine_of (toy_object toy 0 0))
                       [] [5; 6]%Q 3))) as Hinit
    by (vm_compute; reflexivity).
  split; [exact Hinit|].
  destruct (@batch_size_is_product toy _ _ _ _ _ Hinit) as (Hb & _).
  exact Hb.
Defined.

(** ** Reading the accumulator back *)

(** The divisors are guarded, so the call always returns: both fields are
    replaced, and the reference returned is the field [cumulative_cfvs]. *)
Lemma get_stored_eq self :
  get_stored_cfvs_of_all_next_round_boards self =
  Some (update self (iter self) (next_round_inputs self)
          (next_round_values self) (current_round_inputs self)
          (current_round_values self)
          (replace_zeros (cumulative_norm self))
          (div_rows_total (cumulative_cfvs self)
             (replace_zeros (cumulative_norm self))),
        cumulative_cfvs_ref).
Proof.
  unfold get_stored_cfvs_of_all_next_round_boards.
  by rewrite div_rows_Some by apply replace_zeros_nonzero.
Qed.

Lemma div_rows_total_zeros b B P I :
  div_rows_total (zeros4 b B P I) (replace_zeros (zeros3 b B P)) =
  zeros4 b B P I.
Proof.
  unfold div_rows_total, replace_zeros, fmap3, fmap2, zeros4, zeros3,
    zeros2, zeros1.
  by rewrite !fmap_replicate, !zip_with_replicate, fmap_replicate.
Qed.

Lemma evaluate_all_accumulator `{Collaborators} rs : ∀ self self' outs,
  evaluate_all self rs = Some (self', outs) →
  (iter self + Z.of_nat (length rs) ≤
   Z.max cfr_skip_iters (num_leaf_nodes_approximation_iters self))%Z →
  cumulative_cfvs self' = cumulative_cfvs self ∧
  cumulative_norm self' = cumulative_norm self.
Proof.
  induction rs as [|r rs IH]; intros self self' outs; simpl length.
  - by intros [= <- _].
  - simpl. destruct (evaluate_ranges self r) as [[self1 o]|] eqn:E1; [|done].
    simpl. destruct (evaluate_all self1 rs) as [[self2 os]|] eqn:E2; [|done].
    simpl. intros [= <- _] Hle.
    pose proof (evaluate_ranges_budget _ _ _ _ E1) as [Hit Hb].
    apply IH in E2 as [-> ->]; [|rewrite Hit, Hb; lia].
    apply (evaluate_ranges_accumulator _ _ _ _ E1).
    apply accumulates_false. rewrite Hit. lia.
Qed.

Lemma evaluate_all_sizes `{Collaborators} rs : ∀ self self' outs,
  evaluate_all self rs = Some (self', outs) →
  batch_size self' = batch_size self ∧
  next_boards_count self' = next_boards_count self.
Proof.
  induction rs as [|r rs IH]; intros self self' outs; simpl.
  - by intros [= <- _].
  - destruct (evaluate_ranges self r) as [[self1 o]|] eqn:E1; [|done].
    simpl. destruct (evaluate_all self1 rs) as [[self2 os]|] eqn:E2; [|done].
    simpl. intros [= <- _]. apply IH in E2 as [-> ->].
    by apply evaluate_ranges_Some in E1 as (? & ? & _ & _ & _ & -> & _).
Qed.

(** C8.  After a setup and any number of iterations that is at most the
    larger of the skip threshold and the leaf budget, reading the
    accumulator back returns: the array read through the reference is the
    array of zeros of shape [b,BC,PC,HC] (every entry is 0 / 1). *)
Theorem retrieve_without_accumulation `{Collaborators}
    e bd pots n self0 rs self outs :
  init_computation e bd pots n = Some self0 →
  evaluate_all self0 rs = Some (self, outs) →
  (Z.of_nat (length rs) ≤
   Z.max cfr_skip_iters (num_leaf_nodes_approximation_iters self0))%Z →
  ∃ self',
    get_stored_cfvs_of_all_next_round_boards self
      = Some (self', cumulative_cfvs_ref) ∧
    deref self' cumulative_cfvs_ref =
      zeros4 (batch_size self) (next_boards_count self) players_count
        hand_count.
Proof.
  intros Hinit Hall Hle.
  destruct (evaluate_all_accumulator _ _ _ _ Hall) as [Hc Hn].
  { apply init_computation_Some in Hinit
      as (? & ? & ? & ? & ? & ? & ? & ? & _ & _ & _ & _ & _ & _ & _ & _ & ->).
    simpl in *. lia. }
  destruct (evaluate_all_sizes _ _ _ _ Hall) as [Hb HB].
  eexists. split; [apply get_stored_eq|]. simpl.
  rewrite Hc, Hn, Hb, HB.
  apply init_computation_Some in Hinit
    as (? & ? & ? & ? & ? & ? & ? & ? & _ & _ & _ & _ & _ & _ & _ & _ & ->).
  simpl. apply div_rows_total_zeros.
Qed.

Lemma retrieve_without_accumulation_witness :
  @init_computation toy (engine_of (toy_object toy 0 0)) [] [5%Q] 1
    = Some (toy_object toy 0 0) ∧
  @evaluate_all toy (toy_object toy 0 0) [uniform_ranges]
    = Some (toy_object toy 0 1, [toy_return toy 0 0]) ∧
  (Z.of_nat (length [uniform_ranges]) ≤
   Z.max (@cfr_skip_iters toy)
     (num_leaf_nodes_approximation_iters (toy_object toy 0 0)))%Z ∧
  ∃ self',
    get_stored_cfvs_of_all_next_round_boards (toy_object toy 0 1)
      = Some (self', cumulative_cfvs_ref) ∧
    deref self' cumulative_cfvs_ref = @zeros4 1 3 2 3.
Proof.
  assert (@init_computation toy (engine_of (toy_object toy 0 0)) [] [5%Q] 1
          = Some (toy_object toy 0 0)) as Hinit
    by (vm_compute; reflexivity).
  assert (@evaluate_all toy (toy_object toy 0 0) [uniform_ranges]
          = Some (toy_object toy 0 1, [toy_return toy 0 0])) as Hall
    by (vm_compute; reflexivity).
  assert (Z.of_nat (length [uniform_ranges]) ≤
          Z.max (@cfr_skip_iters toy)
            (num_leaf_nodes_approximation_iters (toy_object toy 0 0)))%Z
    as Hle by (vm_compute; discriminate).
  split; [exact Hinit|]. split; [exact Hall|]. split; [exact Hle|].
  exact (@retrieve_without_accumulation toy _ _ _ _ _ _ _ _ Hinit Hall Hle).
Defined.

(** C10.  Reading the accumulator back replaces [cumulative_norm] by its
    guarded version and [cumulative_cfvs] by the quotient, and returns a
    reference to [cumulative_cfvs]; a second call divides the quotient
    again.  In the small game after two iterations the first call returns
    3 and the second call 9/2 for hand 1 of player 0 on the board that
    shows card 0, through the same reference. *)
Theorem retrieve_not_idempotent :
  (∀ self, ∃ self',
     get_stored_cfvs_of_all_next_round_boards self
       = Some (self', cumulative_cfvs_ref) ∧
     cumulative_norm self' = replace_zeros (cumulative_norm self) ∧
     cumulative_cfvs self' =
       div_rows_total (cumulative_cfvs self)
         (replace_zeros (cumulative_norm self)) ∧
     deref self' cumulative_cfvs_ref = cumulative_cfvs self') ∧
  (∃ self1 self2 r1 r2 x y,
     get_stored_cfvs_of_all_next_round_boards (toy_object toy 0 2)
       = Some (self1, r1) ∧
     get_stored_cfvs_of_all_next_round_boards self1 = Some (self2, r2) ∧
     r1 = r2 ∧
     at4 (deref self1 r1) 0 0 0 1 = Some x ∧
     at4 (deref self2 r2) 0 0 0 1 = Some y ∧
     at4 (deref self2 r1) 0 0 0 1 = Some y ∧
     (x == 3)%Q ∧ (y == 9 # 2)%Q ∧ ¬ (x == y)%Q).
Proof.
  split.
  - intros self. eexists. split; [apply get_stored_eq|]. done.
  - eexists _, _, _, _, _, _.
    split; [apply get_stored_eq|]. split; [apply get_stored_eq|].
    split; [done|].
    split; [vm_compute; reflexivity|].
    split; [vm_compute; reflexivity|].
    split; [vm_compute; reflexivity|].
    split; [vm_compute; reflexivity|].
    split; [vm_compute; reflexivity|].
    vm_compute. discriminate.
Qed.

(** ** Entries of the arrays of a call *)



Lemma at3_scale3 t c s p h y :
  at3 (scale3 t c) s p h = Some y →
  ∃ x, at3 t s p h = Some x ∧ y = (x * c)%Q.
Proof.
  unfold at3, at2, scale3, fmap3, fmap2. intros Hy.
  repeat at_step. eexists. by at_close.
Qed.

Lemma at2_add2 a b p h y :
  at2 (add2 a b) p h = Some y →
  ∃ x z, at2 a p h = Some x ∧ at2 b p h = Some z ∧ y = (x + z)%Q.
Proof.
  unfold at2, add2. intros Hy.
  repeat at_step. eexists _, _. by at_close.
Qed.

Lemma at2_zeros2 n m p h y : at2 (zeros2 n m) p h = Some y → y = 0%Q.
Proof.
  unfold at2, zeros2, zeros1. intros Hy. at_step. at_step.
  by apply lookup_replicate_1 in Hy as [-> _].
Qed.

(** An entry of the sum over the boards is the sum of that entry over all
    boards. *)
Lemma at2_sum_boards `{Collaborators} tb p h y :
  at2 (sum_boards tb) p h = Some y →
  ∃ xs, Forall2 (λ b x, at2 b p h = Some x) tb xs ∧ y = qsum xs.
Proof.
  revert y. induction tb as [|b tb IH]; intros y; simpl.
  - intros ->%at2_zeros2. by exists [].
  - intros (x & z & Hx & Hz & ->)%at2_add2.
    destruct (IH _ Hz) as (xs & Hxs & ->).
    exists (x :: xs). split; [by constructor|done].
Qed.

Lemma at3_sum_axis1 `{Collaborators} t s p h y :
  at3 (sum_axis1 t) s p h = Some y →
  ∃ xs, y = qsum xs ∧ board_values t s p h = xs ∧
        ∃ tb, t !! s = Some tb ∧ length xs = length tb.
Proof.
  unfold at3, sum_axis1. intros Hy. repeat at_step.
  apply at2_sum_boards in Hy as (xs & Hxs & ->).
  exists xs. split; [done|]. unfold board_values. rewrite H0. simpl.
  split.
  - clear H0. induction Hxs as [|b x tb xs Hb _ IH]; [done|].
    simpl. rewrite Hb. simpl. f_equal. exact IH.
  - eexists. split; [done|]. symmetry. by eapply Forall2_length.
Qed.

(** The masked ranges of state [s] on board [j]: the rows of the state,
    each multiplied by the mask of the board. *)
Lemma masked_ranges_lookup msk nb ranges s j (tb : T3) (mr : T2) :
  masked_ranges msk nb ranges !! s = Some tb → tb !! j = Some mr →
  ∃ r m, ranges !! s = Some r ∧ msk !! j = Some m ∧ (j < nb)%nat ∧
         mr = mask_hands m <$> r.
Proof.
  unfold masked_ranges, apply_mask, repeat_boards. intros Hs Hj.
  repeat at_step. eauto 10.
Qed.

Lemma div_rows_total_sums t :
  div_rows_total t (replace_zeros (sum_axis3 t)) = fmap3 normalize_row t.
Proof.
  unfold div_rows_total, replace_zeros, sum_axis3, fmap3, fmap2.
  rewrite <- !list_fmap_compose, zip_with_fmap_r, zip_with_diag.
  apply list_fmap_ext. intros _ tb _. simpl.
  rewrite <- !list_fmap_compose, zip_with_fmap_r, zip_with_diag.
  apply list_fmap_ext. intros _ tp _. simpl.
  rewrite <- !list_fmap_compose, zip_with_fmap_r, zip_with_diag.
  done.
Qed.

Lemma max_values_lookup `{Collaborators} pots mv s m :
  max_values pots = Some mv → mv !! s = Some m →
  ∃ pot, pots !! s = Some pot ∧ ¬ (pot == 0)%Q ∧ m = (stack / pot)%Q.
Proof.
  unfold max_values. intros Hmv%mapM_Some_1 Hm.
  destruct (Forall2_lookup_r _ _ _ _ _ Hmv Hm) as (pot & Hpot & Hdiv).
  apply fdiv_Some_inv in Hdiv as [? ->]. eauto.
Qed.

(** ** What the calls preserve *)

Lemma call_mask_length `{Collaborators} self :
  after_setup self → length (mask (call_vars self)) = BC (call_vars self).
Proof.
  intros [_ Hcount (cm & Hcm & _) _ _ _]. unfold call_vars.
  destruct (call_mode self); simpl; [done|by rewrite Hcm].
Qed.

Lemma call_nn_inputs_shape `{Collaborators} self :
  after_setup self →
  length (nn_inputs (call_vars self)) = batch_size self ∧
  Forall (λ tb : T2, length tb = BC (call_vars self))
    (nn_inputs (call_vars self)).
Proof.
  intros [_ _ _ _ Hnext Hcur]. unfold call_vars.
  by destruct (call_mode self).
Qed.

Lemma call_normalized_shape `{Collaborators} self ranges :
  after_setup self →
  has_shape3 (batch_size self) players_count hand_count ranges = true →
  length (call_normalized self ranges) = batch_size self ∧
  Forall (λ tb : T3, length tb = BC (call_vars self))
    (call_normalized self ranges).
Proof.
  intros Hsetup Hshape. pose proof (call_mask_length _ Hsetup) as Hmask.
  unfold call_normalized, call_ranges_sum. rewrite div_rows_total_sums.
  unfold call_masked, masked_ranges, apply_mask, repeat_boards, fmap3, fmap2.
  split.
  - rewrite !length_fmap. by eapply has_shape3_length.
  - apply Forall_lookup. intros i tb Hi. repeat at_step.
    rewrite length_fmap, length_zip_with, length_replicate, Hmask. lia.
Qed.

Lemma call_inputs_shape `{Collaborators} self ranges :
  after_setup self →
  has_shape3 (batch_size self) players_count hand_count ranges = true →
  length (call_inputs self ranges) = batch_size self ∧
  Forall (λ tb : T2, length tb = BC (call_vars self))
    (call_inputs self ranges).
Proof.
  intros Hsetup Hshape.
  destruct (call_nn_inputs_shape _ Hsetup) as [Hlen1 Hall1].
  destruct (call_normalized_shape _ _ Hsetup Hshape) as [Hlen2 Hall2].
  unfold call_inputs, write_ranges. split.
  - rewrite length_zip_with, Hlen1, Hlen2. lia.
  - apply Forall_lookup. intros i tb Hi. at_step.
    eapply Forall_lookup_1 in Hall1; [|done].
    eapply Forall_lookup_1 in Hall2; [|done].
    simpl in *. rewrite length_zip_with, Hall1, Hall2. lia.
Qed.

Lemma evaluate_ranges_after_setup `{Collaborators} self ranges self' out :
  evaluate_ranges self ranges = Some (self', out) →
  after_setup self → after_setup self'.
Proof.
  intros (nn & mv & Hshape & _ & _ & -> & _)%evaluate_ranges_Some Hsetup.
  pose proof (call_inputs_shape _ _ Hsetup Hshape) as Hinp.
  destruct Hsetup as [? ? ? ? ? ?]. unfold call_vars in Hinp.
  split; simpl; try done; destruct (call_mode self); done.
Qed.

Lemma evaluate_all_after_setup `{Collaborators} rs : ∀ self self' outs,
  evaluate_all self rs = Some (self', outs) →
  after_setup self → after_setup self'.
Proof.
  induction rs as [|r rs IH]; intros self self' outs; simpl.
  - by intros [= <- _].
  - destruct (evaluate_ranges self r) as [[self1 o]|] eqn:E1; [|done].
    simpl. destruct (evaluate_all self1 rs) as [[self2 os]|] eqn:E2; [|done].
    simpl. intros [= <- _] Hs. eapply IH; [done|].
    by eapply evaluate_ranges_after_setup.
Qed.

(** ** The bound on the values returned *)

Lemma clip_of_zero m x : (0 <= m)%Q → (x == 0)%Q → (clip (- m) m x == 0)%Q.
Proof.
  intros Hm Hx. unfold clip.
  destruct (Q.min_spec (Qmax x (- m)) m) as [[? ->]|[? ->]];
    destruct (Q.max_spec x (- m)) as [[? E]|[? E]];
    rewrite ?E in *; lra.
Qed.

Lemma qnat_S n :
  (inject_Z (Z.of_nat (S n)) == inject_Z (Z.of_nat n) + 1)%Q.
Proof. by rewrite Nat2Z.inj_succ, <- Z.add_1_r, inject_Z_plus. Qed.

Lemma qnat_nonneg n : (0 <= inject_Z (Z.of_nat n))%Q.
Proof.
  change 0%Q with (inject_Z 0). rewrite <- Zle_Qle. lia.
Qed.

Lemma qnat_le n m :
  (n ≤ m)%nat → (inject_Z (Z.of_nat n) <= inject_Z (Z.of_nat m))%Q.
Proof. intros. rewrite <- Zle_Qle. lia. Qed.

(** A sum of clipped values is bounded by the number of values that are
    not zero, times the bound of the clipping. *)
Lemma qsum_clip_bound m xs :
  (0 <= m)%Q →
  (- (inject_Z (Z.of_nat (count_nonzero xs)) * m)
   <= qsum (clip (- m) m <$> xs)
   <= inject_Z (Z.of_nat (count_nonzero xs)) * m)%Q.
Proof.
  intros Hm. unfold qsum. induction xs as [|x xs IH].
  - unfold count_nonzero. simpl. change (inject_Z (Z.of_nat 0)) with 0%Q. lra.
  - rewrite fmap_cons. cbn [foldr].
    unfold count_nonzero in *. rewrite filter_cons.
    destruct (decide (Qeq_bool x 0 = false)) as [E|E].
    + simpl length. rewrite qnat_S.
      pose proof (clip_bounds m x Hm). nra.
    + apply not_false_is_true, Qeq_bool_iff in E.
      pose proof (clip_of_zero m x Hm E). lra.
Qed.

Lemma count_nonzero_length xs : (count_nonzero xs ≤ length xs)%nat.
Proof. apply length_filter. Qed.

Lemma at2_fmap2 (f : Q → Q) (b : T2) p h :
  at2 (fmap2 f b) p h = f <$> at2 b p h.
Proof.
  unfold at2, fmap2. rewrite list_lookup_fmap.
  destruct (b !! p) as [row|]; [|done]. simpl.
  by rewrite list_lookup_fmap.
Qed.

Lemma board_values_fmap3 (f : Q → Q) (tb : T3) p h :
  omap (λ b : T2, at2 b p h) (fmap3 f tb) =
  f <$> omap (λ b : T2, at2 b p h) tb.
Proof.
  unfold fmap3. induction tb as [|b tb IH]; [done|].
  simpl. rewrite at2_fmap2.
  destruct (at2 b p h); simpl; [f_equal|]; exact IH.
Qed.

Lemma length_omap_le {A B} (f : A → option B) l :
  (length (omap f l) ≤ length l)%nat.
Proof.
  induction l as [|x l IH]; [done|]. simpl.
  destruct (f x); simpl; [apply le_n_S|apply le_S]; exact IH.
Qed.

(** An entry of the array returned: the values of that entry in the output
    buffer of the mode, one per board, clipped, summed and multiplied by
    the normalization constant. *)
Lemma returned_entry `{Collaborators} self ranges self' out s p h v :
  evaluate_ranges self ranges = Some (self', out) →
  at3 out s p h = Some v →
  ∃ pot xs,
    pot_sizes self !! s = Some pot ∧ ¬ (pot == 0)%Q ∧
    xs = board_values (deref self' (nn_outputs_ref (call_mode self))) s p h ∧
    (length xs ≤ BC (call_vars self))%nat ∧
    v = (qsum (clip (- (stack / pot)) (stack / pot) <$> xs)
         * sum_normalization (call_vars self))%Q.
Proof.
  intros (nn & mv & _ & _ & Hmv & -> & ->)%evaluate_ranges_Some.
  unfold call_return. intros (y & Hy & ->)%at3_scale3.
  apply at3_sum_axis1 in Hy as (cs & -> & Hcs & tb & Htb & Hlen).
  unfold board_values in Hcs. rewrite Htb in Hcs. simpl in Hcs.
  unfold call_clipped, clip_outputs in Htb.
  apply lookup_zip_with_Some in Htb as (ob & m & -> & Hob & Hm).
  destruct (max_values_lookup _ _ _ _ Hmv Hm) as (pot & Hpot & Hnz & ->).
  rewrite board_values_fmap3 in Hcs.
  assert (deref (call_state self ranges nn mv) (nn_outputs_ref (call_mode self))
          = call_outputs self ranges nn) as Hbuf.
  { unfold call_state. by destruct (call_mode self). }
  exists pot, (omap (λ b : T2, at2 b p h) ob).
  split; [done|]. split; [done|]. split; [|split].
  - unfold board_values. rewrite Hbuf, Hob. done.
  - etrans; [apply length_omap_le|].
    unfold call_outputs, scale_rows in Hob.
    apply lookup_zip_with_Some in Hob as (pb & vb & -> & Hpb & _).
    rewrite length_zip_with. unfold predict_into in Hpb.
    apply list_lookup_fmap_Some in Hpb as (? & -> & _).
    rewrite length_fmap, length_seq. lia.
  - by rewrite <- Hcs.
Qed.

Lemma evaluate_all_pot_sizes `{Collaborators} rs : ∀ self self' outs,
  evaluate_all self rs = Some (self', outs) →
  pot_sizes self' = pot_sizes self.
Proof.
  induction rs as [|r rs IH]; intros self self' outs; simpl.
  - by intros [= <- _].
  - destruct (evaluate_ranges self r) as [[self1 o]|] eqn:E1; [|done].
    simpl. destruct (evaluate_all self1 rs) as [[self2 os]|] eqn:E2; [|done].
    simpl. intros [= <- _]. apply IH in E2 as ->.
    by apply evaluate_ranges_Some in E1 as (? & ? & _ & _ & _ & -> & _).
Qed.

Lemma entry_bound m k c y :
  (0 <= m)%Q → (0 <= c)%Q → (0 <= k)%Q → (k * c <= 1)%Q →
  (- (k * m) <= y <= k * m)%Q → (- m <= y * c <= m)%Q.
Proof. intros. nra. Qed.

Lemma inv_qnat_bounds n :
  (0 < n)%nat → (0 <= 1 / inject_Z (Z.of_nat n) <= 1)%Q.
Proof.
  intros Hn.
  assert (1 <= inject_Z (Z.of_nat n))%Q as Hq.
  { change 1%Q with (inject_Z 1). rewrite <- Zle_Qle. lia. }
  split.
  - apply Qle_shift_div_l; lra.
  - apply Qle_shift_div_r; lra.
Qed.

Lemma init_computation_pot_sizes `{Collaborators} e bd pots n self :
  init_computation e bd pots n = Some self →
  Forall (λ pot, 0 < pot)%Q pots →
  Forall (λ pot, 0 < pot)%Q (pot_sizes self).
Proof.
  intros (? & ? & ? & ? & ? & ? & ? & ? & _ & _ & _ & _ & _ & _ & _ & _ & ->)
    %init_computation_Some Hpos.
  simpl. unfold repeat_pot_sizes. apply Forall_bind.
  eapply Forall_impl; [exact Hpos|]. intros pot Hpot.
  by apply Forall_replicate.
Qed.

(** C2, as amended.  After a completed setup with positive pot sizes, and
    with a stack that is not negative, an entry of the array returned is
    the normalization constant of the mode times the sum over the boards
    of values that were clipped to plus or minus stack / pot size.  It lies
    within plus or minus stack / pot size on every call in leaf mode; and
    on every call where the normalization constant is not negative and,
    multiplied by the number of boards on which the rescaled model output
    of that entry is not zero, is at most 1. *)
Theorem returned_values_bound `{Collaborators}
    e bd pots n self0 rs self outs ranges self' out :
  init_computation e bd pots n = Some self0 →
  evaluate_all self0 rs = Some (self, outs) →
  evaluate_ranges self ranges = Some (self', out) →
  (0 <= stack)%Q →
  Forall (λ pot, 0 < pot)%Q pots →
  ∀ s p h v, at3 out s p h = Some v →
    ∃ pot xs,
      pot_sizes self !! s = Some pot ∧ (0 < pot)%Q ∧
      xs = board_values (deref self' (nn_outputs_ref (call_mode self))) s p h ∧
      v = (qsum (clip (- (stack / pot)) (stack / pot) <$> xs)
           * sum_normalization (call_vars self))%Q ∧
      (call_mode self = leaf_nodes →
       (- (stack / pot) <= v <= stack / pot)%Q) ∧
      ((0 <= sum_normalization (call_vars self))%Q →
       (inject_Z (Z.of_nat (count_nonzero xs))
        * sum_normalization (call_vars self) <= 1)%Q →
       (- (stack / pot) <= v <= stack / pot)%Q).
Proof.
  intros Hinit Hall Hcall Hstack Hpots s p h v Hv.
  destruct (returned_entry _ _ _ _ _ _ _ _ Hcall Hv)
    as (pot & xs & Hpot & _ & Hxs & Hlen & ->).
  assert (0 < pot)%Q as Hpos.
  { pose proof (init_computation_pot_sizes _ _ _ _ _ Hinit Hpots) as Hall0.
    rewrite <- (evaluate_all_pot_sizes _ _ _ _ Hall) in Hall0.
    by eapply Forall_lookup_1 in Hall0. }
  assert (0 <= stack / pot)%Q as Hm by (apply Qle_shift_div_l; lra).
  exists pot, xs. split; [done|]. split; [done|]. split; [done|].
  split; [done|].
  pose proof (qsum_clip_bound (stack / pot) xs Hm) as Hsum.
  pose proof (qnat_nonneg (count_nonzero xs)) as Hk.
  split.
  - intros Hleaf.
    pose proof (evaluate_all_after_setup _ _ _ _ Hall
                  (init_computation_after_setup _ _ _ _ _ Hinit))
      as [_ _ (m & _ & _ & Hcount & Hnorm) _].
    unfold call_vars in *. rewrite Hleaf in *. simpl in *.
    rewrite Hnorm.
    destruct (inv_qnat_bounds (count_true m)) as [Hc0 Hc1]; [lia|].
    assert (inject_Z (Z.of_nat (count_nonzero xs)) <= 1)%Q as Hk1.
    { change 1%Q with (inject_Z (Z.of_nat 1)). apply qnat_le.
      etrans; [apply count_nonzero_length|done]. }
    apply (entry_bound _ (inject_Z (Z.of_nat (count_nonzero xs))));
      try done.
    nra.
  - intros Hc Hkc. by apply (entry_bound _ _ _ _ Hm Hc Hk Hkc).
Qed.

Lemma returned_values_bound_witness :
  @init_computation toy (engine_of (toy_object toy 0 0)) [] [5%Q] 1
    = Some (toy_object toy 0 0) ∧
  @evaluate_all toy (toy_object toy 0 0) [] = Some (toy_object toy 0 0, []) ∧
  @evaluate_ranges toy (toy_object toy 0 0) uniform_ranges
    = Some (toy_object toy 0 1, toy_return toy 0 0) ∧
  (0 <= @stack toy)%Q ∧
  Forall (λ pot, 0 < pot)%Q [5%Q] ∧
  at3 (toy_return toy 0 0) 0 0 0 = Some (2700 # 1350)%Q ∧
  (- (@stack toy / 5) <= 2700 # 1350 <= @stack toy / 5)%Q.
Proof.
  assert (@init_computation toy (engine_of (toy_object toy 0 0)) [] [5%Q] 1
          = Some (toy_object toy 0 0)) as Hinit
    by (vm_compute; reflexivity).
  assert (@evaluate_all toy (toy_object toy 0 0) []
          = Some (toy_object toy 0 0, [])) as Hall by reflexivity.
  assert (@evaluate_ranges toy (toy_object toy 0 0) uniform_ranges
          = Some (toy_object toy 0 1, toy_return toy 0 0)) as Hcall
    by (vm_compute; reflexivity).
  assert (0 <= @stack toy)%Q as Hstack by (vm_compute; discriminate).
  assert (Forall (λ pot, 0 < pot)%Q [5%Q]) as Hpots
    by (constructor; [reflexivity|constructor]).
  assert (at3 (toy_return toy 0 0) 0 0 0 = Some (2700 # 1350)%Q) as Hv
    by (vm_compute; reflexivity).
  repeat (split; [assumption|]).
  destruct (@returned_values_bound toy _ _ _ _ _ _ _ _ _ _ _
              Hinit Hall Hcall Hstack Hpots 0%nat 0%nat 0%nat _ Hv)
    as (pot & xs & Hpot & _ & -> & _ & _ & Hroot).
  assert (pot = 5%Q) as -> by (vm_compute in Hpot; congruence).
  apply Hroot; vm_compute; discriminate.
Defined.

(** C2 as stated fails.  The small game with the model that answers 7 for
    every hand: on the first call three boards each contribute the clipped
    value 10/5, the normalization constant is 1/2, and the entry returned
    is 3, above stack / pot size = 10/5. *)
Lemma returned_value_above_bound :
  @init_computation toy_unmasked (engine_of (toy_object toy_unmasked 0 0))
    [] [5%Q] 1 = Some (toy_object toy_unmasked 0 0) ∧
  @evaluate_ranges toy_unmasked (toy_object toy_unmasked 0 0) uniform_ranges
    = Some (toy_object toy_unmasked 0 1, toy_return toy_unmasked 0 0) ∧
  pot_sizes (toy_object toy_unmasked 0 0) !! 0%nat = Some 5%Q ∧
  at3 (toy_return toy_unmasked 0 0) 0 0 0 = Some (750 # 250)%Q ∧
  ¬ (750 # 250 <= @stack toy_unmasked / 5)%Q.
Proof.
  repeat split; try (vm_compute; reflexivity).
  vm_compute. intros Hle. by apply Hle.
Qed.

(** The bound also depends on the count of the boards: with the model that
    masks its output, and a count that leaves out the cards of both
    players (one board), a hand is legal on two boards, each contributes
    10/5, and the entry returned is 4. *)
Example returned_value_above_bound_count :
  @evaluate_ranges toy_both_hands (toy_object toy_both_hands 0 0)
    uniform_ranges
    = Some (toy_object toy_both_hands 0 1, toy_return toy_both_hands 0 0) ∧
  root_nodes_sum_normalization (toy_object toy_both_hands 0 0) = 1%Q ∧
  at3 (toy_return toy_both_hands 0 0) 0 0 0 = Some (2700 # 675)%Q ∧
  ¬ (2700 # 675 <= @stack toy_both_hands / 5)%Q.
Proof.
  repeat split; try (vm_compute; reflexivity).
  vm_compute. intros Hle. by apply Hle.
Qed.

(** ** The sums of the masked ranges *)

Lemma has_shape3_lookup n m k t s (r : T2) :
  has_shape3 n m k t = true → t !! s = Some r →
  length r = m ∧ Forall (λ row : T1, length row = k) r.
Proof.
  unfold has_shape3. intros [_ Hall]%andb_prop Hr.
  rewrite forallb_forall in Hall.
  apply list_elem_of_lookup_2, list_elem_of_In, Hall in Hr.
  apply andb_prop in Hr as [Hm%Nat.eqb_eq Hrows]. split; [done|].
  rewrite forallb_forall in Hrows. apply Forall_forall.
  intros row Hrow%list_elem_of_In%Hrows. by apply Nat.eqb_eq.
Qed.

Lemma sum_axis3_lookup msk nb ranges s j (tb : T2) (row : T1) :
  sum_axis3 (masked_ranges msk nb ranges) !! s = Some tb →
  tb !! j = Some row →
  ∃ r m, ranges !! s = Some r ∧ msk !! j = Some m ∧ (j < nb)%nat ∧
         row = (λ x, qsum (mask_hands m x)) <$> r.
Proof.
  unfold sum_axis3, fmap3, fmap2. intros Hs Hj. repeat at_step.
  destruct (masked_ranges_lookup _ _ _ _ _ _ _ H H0)
    as (r & m & ? & ? & ? & ->).
  exists r, m. by rewrite <- list_fmap_compose.
Qed.



Lemma call_state_buffers `{Collaborators} self ranges nn mv :
  deref (call_state self ranges nn mv) (nn_outputs_ref (call_mode self))
    = call_outputs self ranges nn ∧
  nn_inputs (select (call_state self ranges nn mv) (call_mode self))
    = call_inputs self ranges.
Proof. unfold call_state. by destruct (call_mode self). Qed.



(** ** Illegal hands *)

Lemma qsum_mask_hands m row :
  (qsum (mask_hands m row) == qsum (legal_part m row))%Q.
Proof.
  unfold qsum, mask_hands, legal_part. revert m.
  induction row as [|x row IH]; intros [|b m]; try reflexivity.
  cbn [zip_with zip foldr]. specialize (IH m).
  destruct b; simpl; rewrite IH.
  - apply Qplus_comp; [ring|reflexivity].
  - rewrite Qmult_0_r, Qplus_0_l. reflexivity.
Qed.

Lemma length_join_same {A} n (ls : list (list A)) :
  Forall (λ l, length l = n) ls → length (mjoin ls) = (length ls * n)%nat.
Proof.
  induction 1 as [|l ls Hl _ IH]; [done|].
  simpl. rewrite length_app, IH, Hl. done.
Qed.

(** The blocks of state [s] and board [j] in the arrays of a call. *)
Lemma call_blocks self ranges s j (r : T2) m :
  ranges !! s = Some r → mask (call_vars self) !! j = Some m →
  (j < BC (call_vars self))%nat →
  (∃ tb, call_masked self ranges !! s = Some tb ∧
         tb !! j = Some (mask_hands m <$> r)) ∧
  (∃ tb, call_normalized self ranges !! s = Some tb ∧
         tb !! j = Some ((λ row, normalize_row (mask_hands m row)) <$> r)) ∧
  (∃ tb, call_ranges_sum self ranges !! s = Some tb ∧
         tb !! j = Some ((λ row, qsum (mask_hands m row)) <$> r)).
Proof.
  intros Hr Hm Hj.
  assert (∃ tb, call_masked self ranges !! s = Some tb ∧
                tb !! j = Some (mask_hands m <$> r)) as (tb & Hs & Htb).
  { unfold call_masked, masked_ranges, apply_mask, repeat_boards.
    rewrite <- list_fmap_compose, list_lookup_fmap, Hr. simpl.
    eexists. split; [done|].
    rewrite lookup_zip_with, lookup_replicate_2 by done. simpl.
    by rewrite Hm. }
  split; [by exists tb|]. split.
  - unfold call_normalized, call_ranges_sum. rewrite div_rows_total_sums.
    unfold fmap3, fmap2. rewrite list_lookup_fmap, Hs. simpl.
    eexists. split; [done|]. rewrite list_lookup_fmap, Htb. simpl.
    by rewrite <- list_fmap_compose.
  - unfold call_ranges_sum, sum_axis3, fmap3, fmap2.
    rewrite list_lookup_fmap, Hs. simpl.
    eexists. split; [done|]. rewrite list_lookup_fmap, Htb. simpl.
    by rewrite <- list_fmap_compose.
Qed.

(** C4.  On a call after a completed setup, for a board [j] of the mode
    whose mask marks hand [h] illegal, and for every state and player:
    the entry of hand [h] is zero in the masked ranges and in the
    normalized ranges, and so is the entry of that player and hand in the
    range slots of the input buffer of the mode after the call; and the
    sum of the masked range, which is the divisor of the normalization
    once guarded, is the sum of the entries of the range at the legal
    hands. *)
Theorem illegal_hands_carry_no_mass `{Collaborators}
    e bd pots n self0 rs self outs ranges self' out :
  init_computation e bd pots n = Some self0 →
  evaluate_all self0 rs = Some (self, outs) →
  evaluate_ranges self ranges = Some (self', out) →
  ∀ j m h s p,
    mask (call_vars self) !! j = Some m →
    m !! h = Some false →
    (s < batch_size self)%nat →
    (p < players_count)%nat →
    (∃ x, at4 (call_masked self ranges) s j p h = Some x ∧ (x == 0)%Q) ∧
    (∃ x, at4 (call_normalized self ranges) s j p h = Some x ∧
          (x == 0)%Q) ∧
    (∃ x, at3 (nn_inputs (select self' (call_mode self))) s j
            (p * hand_count + h) = Some x ∧ (x == 0)%Q) ∧
    (∃ r row d,
       ranges !! s = Some r ∧ r !! p = Some row ∧
       at3 (call_ranges_sum self ranges) s j p = Some d ∧
       (d == qsum (legal_part m row))%Q).
Proof.
  intros Hinit Hall Hcall j m h s p Hm Hh Hs Hp.
  pose proof (evaluate_all_after_setup _ _ _ _ Hall
                (init_computation_after_setup _ _ _ _ _ Hinit)) as Hsetup.
  apply evaluate_ranges_Some in Hcall
    as (nn & mv & Hshape & _ & _ & -> & _).
  destruct (call_state_buffers self ranges nn mv) as [_ ->].
  (* the shapes *)
  assert (length m = hand_count) as Hmlen.
  { destruct Hsetup as [Hnm _ (cm & Hcm & Hcmlen & _) _ _ _].
    unfold call_vars in Hm. destruct (call_mode self); simpl in Hm.
    - by eapply Forall_lookup_1 in Hnm.
    - rewrite Hcm in Hm. destruct j; [|done]. by injection Hm as <-. }
  assert (j < BC (call_vars self))%nat as Hj.
  { rewrite <- (call_mask_length _ Hsetup). by eapply lookup_lt_Some. }
  assert (h < hand_count)%nat as Hhlt.
  { rewrite <- Hmlen. by eapply lookup_lt_Some. }
  destruct (lookup_lt_is_Some_2 ranges s) as [r Hr].
  { by rewrite (has_shape3_length _ _ _ _ Hshape). }
  destruct (has_shape3_lookup _ _ _ _ _ _ Hshape Hr) as [Hlen Hrows].
  destruct (lookup_lt_is_Some_2 r p) as [row Hrow]; [by rewrite Hlen|].
  assert (length row = hand_count) as Hrowlen
    by by eapply Forall_lookup_1 in Hrows.
  destruct (lookup_lt_is_Some_2 row h) as [x0 Hx0]; [by rewrite Hrowlen|].
  (* the entries *)
  assert (mask_hands m row !! h = Some (x0 * b2q false)%Q) as Hmasked.
  { unfold mask_hands. by rewrite lookup_zip_with, Hx0, Hh. }
  assert (normalize_row (mask_hands m row) !! h
          = Some (x0 * b2q false / replace_zero (qsum (mask_hands m row)))%Q)
    as Hnorm.
  { unfold normalize_row. by rewrite list_lookup_fmap, Hmasked. }
  destruct (call_blocks self ranges s j r m Hr Hm Hj)
    as ((tb1 & Hs1 & Hj1) & (tb2 & Hs2 & Hj2) & (tb3 & Hs3 & Hj3)).
  split; [|split; [|split]].
  - eexists. split.
    + unfold at4, at3, at2. rewrite Hs1. simpl. rewrite Hj1. simpl.
      rewrite list_lookup_fmap, Hrow. simpl. exact Hmasked.
    + simpl. ring.
  - eexists. split.
    + unfold at4, at3, at2. rewrite Hs2. simpl. rewrite Hj2. simpl.
      rewrite list_lookup_fmap, Hrow. simpl. exact Hnorm.
    + simpl. unfold Qdiv. ring.
  - destruct (call_nn_inputs_shape _ Hsetup) as [Hilen Hiall].
    destruct (lookup_lt_is_Some_2 (nn_inputs (call_vars self)) s)
      as [ib Hib]; [by rewrite Hilen|].
    destruct (lookup_lt_is_Some_2 ib j) as [old Hold].
    { eapply Forall_lookup_1 in Hiall; [|done]. simpl in Hiall.
      by rewrite Hiall. }
    assert (Forall (λ l : T1, length l = hand_count)
              ((λ row, normalize_row (mask_hands m row)) <$> r)) as Hnr.
    { apply Forall_fmap. eapply Forall_impl; [exact Hrows|].
      intros row' Hrow'. simpl in Hrow'. simpl.
      unfold normalize_row, mask_hands.
      rewrite length_fmap, length_zip_with. lia. }
    eexists. split.
    + unfold at3, at2, call_inputs, write_ranges.
      rewrite lookup_zip_with, Hib. simpl. rewrite Hs2. simpl.
      rewrite lookup_zip_with, Hold. simpl. rewrite Hj2. simpl.
      rewrite lookup_app_l.
      2:{ rewrite (length_join_same _ _ Hnr), length_fmap, Hlen.
          unfold players_count in *. nia. }
      apply (join_lookup_Some_same_length' _ _ _ _ _ Hnr Hhlt).
      eexists. split; [|exact Hnorm].
      by rewrite list_lookup_fmap, Hrow.
    + simpl. unfold Qdiv. ring.
  - exists r, row, (qsum (mask_hands m row)).
    split; [done|]. split; [done|]. split.
    + unfold at3, at2. rewrite Hs3. simpl. rewrite Hj3. simpl.
      by rewrite list_lookup_fmap, Hrow.
    + apply qsum_mask_hands.
Qed.

Lemma illegal_hands_carry_no_mass_witness :
  @init_computation toy (engine_of (toy_object toy 0 0)) [] [5%Q] 1
    = Some (toy_object toy 0 0) ∧
  @evaluate_all toy (toy_object toy 0 0) [] = Some (toy_object toy 0 0, []) ∧
  @evaluate_ranges toy (toy_object toy 0 0) pure_ranges
    = Some (toy_result toy 0 0 pure_ranges) ∧
  mask (call_vars (toy_object toy 0 0)) !! 0%nat
    = Some [false; true; true] ∧
  ∃ x,
    at3 (nn_inputs (select (toy_result toy 0 0 pure_ranges).1
                      (call_mode (toy_object toy 0 0)))) 0 0 3 = Some x ∧
    (x == 0)%Q.
Proof.
  assert (@init_computation toy (engine_of (toy_object toy 0 0)) [] [5%Q] 1
          = Some (toy_object toy 0 0)) as Hinit
    by (vm_compute; reflexivity).
  assert (@evaluate_all toy (toy_object toy 0 0) []
          = Some (toy_object toy 0 0, [])) as Hall by reflexivity.
  assert (@evaluate_ranges toy (toy_object toy 0 0) pure_ranges
          = Some ((toy_result toy 0 0 pure_ranges).1,
                  (toy_result toy 0 0 pure_ranges).2)) as Hcall
    by (vm_compute; reflexivity).
  assert (mask (call_vars (toy_object toy 0 0)) !! 0%nat
          = Some [false; true; true]) as Hm by (vm_compute; reflexivity).
  split; [exact Hinit|]. split; [exact Hall|].
  split; [vm_compute; reflexivity|]. split; [exact Hm|].
  assert (0 < batch_size (toy_object toy 0 0))%nat as Hs
    by (vm_compute; lia).
  assert (1 < players_count)%nat as Hp by (unfold players_count; lia).
  destruct (@illegal_hands_carry_no_mass toy _ _ _ _ _ _ _ _ _ _ _
              Hinit Hall Hcall 0%nat _ 0%nat 0%nat 1%nat Hm eq_refl Hs Hp)
    as (_ & _ & Hinp & _).
  exact Hinp.
Defined.

(** ** Guarded divisions *)

Lemma qsum_nonneg row : Forall (λ x, 0 <= x)%Q row → (0 <= qsum row)%Q.
Proof.
  unfold qsum. induction 1 as [|x row Hx _ IH]; simpl; lra.
Qed.


(** The only division of [evaluate_ranges] that can meet a zero divisor is
    the one by the pot sizes: on ranges of the expected shape, with a
    model for the mode and no pot size equal to zero, the call returns. *)
Lemma evaluate_ranges_returns `{Collaborators} self ranges :
  has_shape3 (batch_size self) players_count hand_count ranges = true →
  is_Some (neural_network (call_vars self)) →
  Forall (λ pot, ¬ (pot == 0)%Q) (pot_sizes self) →
  is_Some (evaluate_ranges self ranges).
Proof.
  intros Hshape [nn Hnn] Hpots. rewrite evaluate_ranges_eq, Hshape, Hnn.
  simpl. destruct (max_values (pot_sizes self)) as [mv|] eqn:Hmv; [done|].
  unfold max_values in Hmv. apply mapM_None_1, Exists_exists in Hmv
    as (pot & Hin & Hdiv).
  rewrite Forall_forall in Hpots. apply Hpots in Hin.
  by rewrite fdiv_Some in Hdiv.
Qed.


(** A slot without mass in the small game: on the board that shows card 0,
    the masked range of the player who holds hand 0 for sure has sum
    zero, and its normalized range is zero at every hand. *)
Example zero_mass_slot :
  at3 (call_ranges_sum (toy_object toy 0 0) pure_ranges) 0 0 0 = Some 0%Q ∧
  at4 (call_normalized (toy_object toy 0 0) pure_ranges) 0 0 0 0 = Some 0%Q ∧
  at4 (call_normalized (toy_object toy 0 0) pure_ranges) 0 0 0 1 = Some 0%Q ∧
  at4 (call_normalized (toy_object toy 0 0) pure_ranges) 0 0 0 2 = Some 0%Q.
Proof. repeat split; vm_compute; reflexivity. Qed.

(** * Further properties *)

(** ** The registry *)

Lemma register_lookup `{Collaborators} `{Configuration} d st k :
  register d st !! k =
  match construct st with
  | Some e => if decide (st = k) then Some e else d !! k
  | None => d !! k
  end.
Proof.
  unfold register. destruct (construct st) as [e|]; [|done].
  apply lookup_insert.
Qed.

Lemma NextRoundValue_init_Some `{Collaborators} st skip leaf e :
  NextRoundValue_init st skip leaf = Some e →
  pretrained_weights (st + 1) root_nodes = true ∧
  e_street e = st ∧
  e_next_street_nn e = {| nn_street := st + 1; nn_approximate := root_nodes |} ∧
  (if pretrained_weights st leaf_nodes
   then e_leaf_nodes_nn e
          = Some {| nn_street := st; nn_approximate := leaf_nodes |} ∧
        e_num_leaf_nodes_approximation_iters e = leaf
   else e_leaf_nodes_nn e = None ∧
        e_num_leaf_nodes_approximation_iters e = 0%Z).
Proof.
  unfold NextRoundValue_init, new_ValueNn.
  destruct (pretrained_weights (st + 1) root_nodes); [|done]. simpl.
  destruct (pretrained_weights st leaf_nodes); by intros [= <-].
Qed.

(** X1.  Looking a round up in the registry returns an object exactly when
    the round is 1, 2 or 3, its name is a key of the configured leaf
    budgets and the root model of the following round has weights; the
    object is the one built for that round, whatever happened to the
    other rounds.  Any other lookup fails. *)
Theorem registry_lookup `{Collaborators} `{Configuration} st :
  (∀ e, get_next_round_value st = Some e ↔
        (st = 1 ∨ st = 2 ∨ st = 3)%Z ∧ construct st = Some e) ∧
  (is_Some (get_next_round_value st) ↔
   (st = 1 ∨ st = 2 ∨ st = 3)%Z ∧
   is_Some (leaf_nodes_iterations !! street_to_name st) ∧
   pretrained_weights (st + 1) root_nodes = true) ∧
  (∀ e, get_next_round_value st = Some e →
        e_street e = st ∧
        nn_street (e_next_street_nn e) = (st + 1)%Z ∧
        (e_leaf_nodes_nn e = None →
         e_num_leaf_nodes_approximation_iters e = 0%Z)).
Proof.
  assert (∀ e, get_next_round_value st = Some e ↔
               (st = 1 ∨ st = 2 ∨ st = 3)%Z ∧ construct st = Some e) as Hiff.
  { intros e. unfold get_next_round_value, NEXT_ROUND_VALUES. simpl.
    rewrite !register_lookup, lookup_empty.
    destruct (construct 3) as [e3|] eqn:E3;
      destruct (construct 2) as [e2|] eqn:E2;
      destruct (construct 1) as [e1|] eqn:E1;
      repeat case_decide; subst;
      rewrite ?E1, ?E2, ?E3; intuition (congruence || lia). }
  split; [exact Hiff|]. split.
  - unfold is_Some. setoid_rewrite Hiff. unfold construct.
    destruct (leaf_nodes_iterations !! street_to_name st) as [leaf|];
      simpl.
    + unfold NextRoundValue_init, new_ValueNn.
      destruct (pretrained_weights (st + 1) root_nodes); simpl.
      * split; [intros (e & ? & ?); eauto|].
        intros (? & _ & _). eauto.
      * split; [by intros (e & _ & ?)|by intros (_ & _ & ?)].
    + split; [by intros (e & _ & ?)|by intros (_ & [? ?] & _)].
  - intros e [_ Hc]%Hiff. unfold construct in Hc.
    destruct (leaf_nodes_iterations !! street_to_name st) as [leaf|];
      [|done].
    simpl in Hc.
    apply NextRoundValue_init_Some in Hc as (_ & ? & -> & Hleaf).
    split; [done|]. split; [done|].
    destruct (pretrained_weights st leaf_nodes);
      destruct Hleaf as [Hnn ?]; [by rewrite Hnn|done].
Qed.

(** The registry of the small game with missing models: round 1 only. *)
Example registry_of_toy_partial :
  is_Some (@get_next_round_value toy_partial toy_configuration 1) ∧
  @get_next_round_value toy_partial toy_configuration 2 = None ∧
  @get_next_round_value toy_partial toy_configuration 3 = None ∧
  @get_next_round_value toy_partial toy_configuration 0 = None.
Proof. repeat split; try (vm_compute; reflexivity). vm_compute. eauto. Qed.

(** ** Sequences of calls *)

(** A property that every completed call preserves holds after any
    sequence of calls. *)
Lemma evaluate_all_inv `{Collaborators} (P : NextRoundValue → Prop)
    (Q : T3 → Prop) rs : ∀ self self' outs,
  (∀ a r b o, P a → Q r → evaluate_ranges a r = Some (b, o) → P b) →
  Forall Q rs → P self →
  evaluate_all self rs = Some (self', outs) → P self'.
Proof.
  induction rs as [|r rs IH]; intros self self' outs Hstep Hrs HP; simpl.
  - by intros [= <- _].
  - destruct (evaluate_ranges self r) as [[self1 o]|] eqn:E1; [|done].
    simpl. destruct (evaluate_all self1 rs) as [[self2 os]|] eqn:E2; [|done].
    simpl. intros [= <- _]. inversion Hrs; subst.
    eapply IH; [exact Hstep|done| |exact E2]. by eapply Hstep.
Qed.

Lemma Forall_any {A} (l : list A) : Forall (λ _, True) l.
Proof. by apply Forall_forall. Qed.

Lemma evaluate_ranges_setup_fields `{Collaborators} self ranges self' out :
  evaluate_ranges self ranges = Some (self', out) →
  setup_fields self' = setup_fields self.
Proof. by intros (? & ? & _ & _ & _ & -> & _)%evaluate_ranges_Some. Qed.

Lemma evaluate_all_setup_fields `{Collaborators} rs self self' outs :
  evaluate_all self rs = Some (self', outs) →
  setup_fields self' = setup_fields self.
Proof.
  apply (evaluate_all_inv (λ x, setup_fields x = setup_fields self)
           (λ _, True)); [|apply Forall_any|done].
  intros a r b o Ha _ Hcall.
  by rewrite (evaluate_ranges_setup_fields _ _ _ _ Hcall).
Qed.

Lemma init_computation_fresh `{Collaborators} e bd pots n self :
  init_computation e bd pots n = Some self →
  engine_of self = e ∧ iter self = 0%Z ∧
  current_board self = bd ∧
  cumulative_norm self =
    zeros3 (batch_size self) (next_boards_count self) players_count ∧
  cumulative_cfvs self =
    zeros4 (batch_size self) (next_boards_count self) players_count
      hand_count ∧
  next_round_values self =
    zeros4 (batch_size self) (next_boards_count self) players_count
      hand_count ∧
  current_round_values self =
    zeros4 (batch_size self) 1 players_count hand_count.
Proof.
  intros (? & ? & ? & ? & ? & ? & ? & ? & _ & _ & _ & _ & _ & _ & _ & _ & ->)
    %init_computation_Some.
  simpl. by destruct e.
Qed.

(** X2.  A new setup on an object that was used, through any number of
    iterations and a read-back of the accumulator, is the setup of a new
    object: the iterations and the read-back leave the fields of
    [__init__] as they were, and [init_computation] reads nothing else of
    the object.  In particular the counter is 0 and the accumulator is
    zero after it. *)
Theorem setup_resets `{Collaborators}
    e bd0 pots0 n0 self0 rs self1 outs self2 r bd pots n :
  init_computation e bd0 pots0 n0 = Some self0 →
  evaluate_all self0 rs = Some (self1, outs) →
  get_stored_cfvs_of_all_next_round_boards self1 = Some (self2, r) →
  init_computation (engine_of self1) bd pots n = init_computation e bd pots n ∧
  init_computation (engine_of self2) bd pots n = init_computation e bd pots n ∧
  ∀ self3,
    init_computation (engine_of self2) bd pots n = Some self3 →
    iter self3 = 0%Z ∧
    cumulative_norm self3 =
      zeros3 (batch_size self3) (next_boards_count self3) players_count ∧
    cumulative_cfvs self3 =
      zeros4 (batch_size self3) (next_boards_count self3) players_count
        hand_count.
Proof.
  intros Hinit Hall Hget.
  destruct (init_computation_fresh _ _ _ _ _ Hinit) as (He & _).
  pose proof (evaluate_all_setup_fields _ _ _ _ Hall) as Hf.
  assert (engine_of self1 = e) as H1.
  { rewrite <- He. unfold setup_fields in Hf. congruence. }
  assert (engine_of self2 = e) as H2.
  { rewrite get_stored_eq in Hget. injection Hget as <- _. exact H1. }
  rewrite H1, H2. split; [done|]. split; [done|].
  intros self3 (_ & ? & _ & ? & ? & _)%init_computation_fresh. done.
Qed.

Lemma setup_resets_witness :
  @init_computation toy (engine_of (toy_object toy 0 0)) [] [5%Q] 1
    = Some (toy_object toy 0 0) ∧
  @evaluate_all toy (toy_object toy 0 0) (replicate 2 uniform_ranges)
    = Some (toy_object toy 0 2,
            [toy_return toy 0 0; toy_return toy 0 1]) ∧
  cumulative_norm (toy_object toy 0 2)
    ≠ cumulative_norm (toy_object toy 0 0) ∧
  @init_computation toy (engine_of (toy_object toy 0 2)) [] [5%Q] 1
    = Some (toy_object toy 0 0).
Proof.
  assert (@init_computation toy (engine_of (toy_object toy 0 0)) [] [5%Q] 1
          = Some (toy_object toy 0 0)) as Hinit
    by (vm_compute; reflexivity).
  assert (@evaluate_all toy (toy_object toy 0 0) (replicate 2 uniform_ranges)
          = Some (toy_object toy 0 2,
                  [toy_return toy 0 0; toy_return toy 0 1])) as Hall
    by (vm_compute; reflexivity).
  split; [exact Hinit|]. split; [exact Hall|].
  split; [vm_compute; discriminate|].
  destruct (@setup_resets toy _ _ _ _ _ _ _ _ _ _ [] [5%Q] 1%nat
              Hinit Hall (get_stored_eq _)) as (H1 & _).
  rewrite H1. exact Hinit.
Defined.

(** In a call in leaf mode the root buffers stay; in a call in root mode
    the leaf buffers stay. *)
Lemma evaluate_ranges_other_buffers `{Collaborators} self ranges self' out :
  evaluate_ranges self ranges = Some (self', out) →
  (call_mode self = leaf_nodes →
   next_round_inputs self' = next_round_inputs self ∧
   next_round_values self' = next_round_values self) ∧
  (call_mode self = root_nodes →
   current_round_inputs self' = current_round_inputs self ∧
   current_round_values self' = current_round_values self).
Proof.
  intros (? & ? & _ & _ & _ & -> & _)%evaluate_ranges_Some.
  split; intros Hm; simpl; by rewrite Hm.
Qed.

Lemma evaluate_all_leaf_phase `{Collaborators} rs : ∀ self self' outs,
  evaluate_all self rs = Some (self', outs) →
  (iter self + Z.of_nat (length rs)
   ≤ num_leaf_nodes_approximation_iters self)%Z →
  next_round_inputs self' = next_round_inputs self ∧
  next_round_values self' = next_round_values self.
Proof.
  induction rs as [|r rs IH]; intros self self' outs; simpl length.
  - by intros [= <- _].
  - simpl. destruct (evaluate_ranges self r) as [[self1 o]|] eqn:E1; [|done].
    simpl. destruct (evaluate_all self1 rs) as [[self2 os]|] eqn:E2; [|done].
    simpl. intros [= <- _] Hle.
    pose proof (evaluate_ranges_budget _ _ _ _ E1) as [Hit Hb].
    apply IH in E2 as [-> ->]; [|rewrite Hit, Hb; lia].
    apply (evaluate_ranges_other_buffers _ _ _ _ E1).
    apply mode_of_leaf. unfold call_iter. lia.
Qed.

Lemma evaluate_all_root_phase `{Collaborators} rs : ∀ self self' outs,
  evaluate_all self rs = Some (self', outs) →
  (num_leaf_nodes_approximation_iters self < iter self + 1)%Z →
  current_round_inputs self' = current_round_inputs self ∧
  current_round_values self' = current_round_values self.
Proof.
  induction rs as [|r rs IH]; intros self self' outs; simpl.
  - by intros [= <- _].
  - destruct (evaluate_ranges self r) as [[self1 o]|] eqn:E1; [|done].
    simpl. destruct (evaluate_all self1 rs) as [[self2 os]|] eqn:E2; [|done].
    simpl. intros [= <- _] Hlt.
    pose proof (evaluate_ranges_budget _ _ _ _ E1) as [Hit Hb].
    apply IH in E2 as [-> ->]; [|rewrite Hit, Hb; lia].
    apply (evaluate_ranges_other_buffers _ _ _ _ E1).
    apply mode_of_root. unfold call_iter. lia.
Qed.

(** X3.  After a setup and [k] completed calls the counter is [k].  The
    next call is in leaf mode exactly when [k + 1] is at most the leaf
    budget, and adds to the accumulator exactly when [k + 1] is above the
    skip threshold and above the leaf budget.  As long as [k] is at most
    the leaf budget the root buffers and the accumulator are still as the
    setup left them: zero. *)
Theorem call_numbering `{Collaborators} e bd pots n self0 rs self outs :
  init_computation e bd pots n = Some self0 →
  evaluate_all self0 rs = Some (self, outs) →
  let k := Z.of_nat (length rs) in
  let budget := e_num_leaf_nodes_approximation_iters e in
  iter self = k ∧
  (call_mode self = leaf_nodes ↔ (k + 1 ≤ budget)%Z) ∧
  (call_accumulates self = true ↔
   (cfr_skip_iters < k + 1)%Z ∧ (budget < k + 1)%Z) ∧
  ((k ≤ budget)%Z →
   next_round_values self =
     zeros4 (batch_size self) (next_boards_count self) players_count
       hand_count ∧
   cumulative_norm self =
     zeros3 (batch_size self) (next_boards_count self) players_count ∧
   cumulative_cfvs self =
     zeros4 (batch_size self) (next_boards_count self) players_count
       hand_count).
Proof.
  intros Hinit Hall k budget.
  destruct (init_computation_fresh _ _ _ _ _ Hinit)
    as (He & Hit0 & _ & Hn0 & Hc0 & Hv0 & _).
  destruct (evaluate_all_budget _ _ _ _ Hall) as [Hit Hb].
  destruct (evaluate_all_sizes _ _ _ _ Hall) as [Hbs HBC].
  assert (num_leaf_nodes_approximation_iters self0 = budget) as Hb0
    by (unfold budget; by rewrite <- He).
  rewrite Hit0 in Hit. rewrite Hb0 in Hb.
  split; [by rewrite Hit|]. split; [|split].
  - unfold call_mode. rewrite mode_of_leaf. unfold call_iter.
    rewrite Hit, Hb. fold k. lia.
  - unfold call_accumulates. rewrite accumulates_true. unfold call_iter.
    rewrite Hit, Hb. fold k. lia.
  - intros Hk.
    destruct (evaluate_all_leaf_phase _ _ _ _ Hall) as [_ ->];
      [rewrite Hit0, Hb0; fold k; lia|].
    destruct (evaluate_all_accumulator _ _ _ _ Hall) as [-> ->];
      [rewrite Hit0, Hb0; fold k; lia|].
    by rewrite Hbs, HBC.
Qed.

Lemma call_numbering_witness :
  @init_computation toy (engine_of (toy_object toy 2 0)) [] [5%Q] 1
    = Some (toy_object toy 2 0) ∧
  @evaluate_all toy (toy_object toy 2 0) (replicate 2 uniform_ranges)
    = Some (toy_object toy 2 2,
            [toy_return toy 2 0; toy_return toy 2 1]) ∧
  iter (toy_object toy 2 2) = 2%Z ∧
  call_mode (toy_object toy 2 2) = root_nodes ∧
  @call_accumulates toy (toy_object toy 2 2) = true ∧
  cumulative_norm (toy_object toy 2 2) = zeros3 1 3 2.
Proof.
  assert (@init_computation toy (engine_of (toy_object toy 2 0)) [] [5%Q] 1
          = Some (toy_object toy 2 0)) as Hinit
    by (vm_compute; reflexivity).
  assert (@evaluate_all toy (toy_object toy 2 0) (replicate 2 uniform_ranges)
          = Some (toy_object toy 2 2,
                  [toy_return toy 2 0; toy_return toy 2 1])) as Hall
    by (vm_compute; reflexivity).
  split; [exact Hinit|]. split; [exact Hall|].
  destruct (@call_numbering toy _ _ _ _ _ _ _ _ Hinit Hall)
    as (Hit & Hleaf & Hacc & Hzero).
  split; [exact Hit|]. split; [|split].
  - destruct (call_mode (toy_object toy 2 2)) eqn:E; [done|].
    destruct Hleaf as [Hl _]. specialize (Hl eq_refl).
    vm_compute in Hl. exfalso. by apply Hl.
  - apply Hacc. by vm_compute.
  - apply Hzero. vm_compute. discriminate.
Defined.

(** X4.  An object built without leaf model (no weights for the leaf
    model of its round) has leaf budget 0, whatever budget was asked for:
    after a setup every call is in root mode, and the leaf buffers stay as
    the setup left them. *)
Theorem root_only_engine `{Collaborators}
    st skip leaf e bd pots n self0 rs self outs :
  NextRoundValue_init st skip leaf = Some e →
  pretrained_weights st leaf_nodes = false →
  init_computation e bd pots n = Some self0 →
  evaluate_all self0 rs = Some (self, outs) →
  leaf_nodes_nn self = None ∧
  num_leaf_nodes_approximation_iters self = 0%Z ∧
  call_mode self = root_nodes ∧
  neural_network (call_vars self) = Some (next_street_nn self) ∧
  current_round_inputs self = current_round_inputs self0 ∧
  current_round_values self =
    zeros4 (batch_size self) 1 players_count hand_count.
Proof.
  intros Hnew Hw Hinit Hall.
  apply NextRoundValue_init_Some in Hnew as (_ & _ & _ & Hleaf).
  rewrite Hw in Hleaf. destruct Hleaf as [Hnn Hbud].
  destruct (init_computation_fresh _ _ _ _ _ Hinit)
    as (He & Hit0 & _ & _ & _ & _ & Hv0).
  destruct (evaluate_all_budget _ _ _ _ Hall) as [Hit Hb].
  destruct (evaluate_all_sizes _ _ _ _ Hall) as [Hbs _].
  pose proof (evaluate_all_setup_fields _ _ _ _ Hall) as Hf.
  assert (num_leaf_nodes_approximation_iters self0 = 0%Z) as Hb0
    by by rewrite <- Hbud, <- He.
  assert (call_mode self = root_nodes) as Hmode.
  { apply mode_of_root. unfold call_iter. rewrite Hit, Hb, Hit0, Hb0. lia. }
  split; [|split; [|split; [|split]]].
  - unfold setup_fields, engine_of in Hf.
    rewrite <- He in Hnn. simpl in Hnn. congruence.
  - by rewrite Hb.
  - exact Hmode.
  - unfold call_vars. by rewrite Hmode.
  - destruct (evaluate_all_root_phase _ _ _ _ Hall) as [Hi Hv];
      [rewrite Hit0, Hb0; lia|].
    by rewrite Hi, Hv, Hbs.
Qed.

Lemma root_only_engine_witness :
  @NextRoundValue_init toy_partial 1 1 4
    = Some (engine_of (toy_object toy_partial 4 0)) ∧
  @pretrained_weights toy_partial 1 leaf_nodes = false ∧
  @init_computation toy_partial (engine_of (toy_object toy_partial 4 0))
    [] [5%Q] 1 = Some (toy_object toy_partial 4 0) ∧
  @evaluate_all toy_partial (toy_object toy_partial 4 0) [uniform_ranges]
    = Some (toy_object toy_partial 4 1, [toy_return toy_partial 4 0]) ∧
  num_leaf_nodes_approximation_iters (toy_object toy_partial 4 1) = 0%Z ∧
  call_mode (toy_object toy_partial 4 1) = root_nodes.
Proof.
  assert (@NextRoundValue_init toy_partial 1 1 4
          = Some (engine_of (toy_object toy_partial 4 0))) as Hnew
    by (vm_compute; reflexivity).
  assert (@pretrained_weights toy_partial 1 leaf_nodes = false) as Hw
    by reflexivity.
  assert (@init_computation toy_partial
            (engine_of (toy_object toy_partial 4 0)) [] [5%Q] 1
          = Some (toy_object toy_partial 4 0)) as Hinit
    by (vm_compute; reflexivity).
  assert (@evaluate_all toy_partial (toy_object toy_partial 4 0)
            [uniform_ranges]
          = Some (toy_object toy_partial 4 1, [toy_return toy_partial 4 0]))
    as Hall by (vm_compute; reflexivity).
  split; [exact Hnew|]. split; [exact Hw|]. split; [exact Hinit|].
  split; [exact Hall|].
  destruct (@root_only_engine toy_partial _ _ _ _ _ _ _ _ _ _ _
              Hnew Hw Hinit Hall) as (_ & Hb & Hm & _).
  by split.
Defined.

(** ** Calls that return *)

(** X5.  After the setup of an object that [__init__] built, with no pot
    size equal to zero, at least one state and at least one next board
    (NumPy cannot reshape an empty buffer with [-1]), every call on ranges
    of shape [b,PC,HC] returns, whatever the number of calls: the model of
    the mode exists, because an object without leaf model has budget 0,
    and no division meets a zero divisor. *)
Theorem evaluate_all_returns `{Collaborators}
    st skip leaf e bd pots n self0 rs :
  NextRoundValue_init st skip leaf = Some e →
  init_computation e bd pots n = Some self0 →
  Forall (λ pot, ¬ (pot == 0)%Q) pots →
  (0 < batch_size self0)%nat →
  (0 < next_boards_count self0)%nat →
  Forall (λ r, has_shape3 (batch_size self0) players_count hand_count r
               = true) rs →
  ∃ self outs,
    evaluate_all self0 rs = Some (self, outs) ∧ length outs = length rs.
Proof.
  intros Hnew Hinit Hpots _ _ Hrs.
  apply NextRoundValue_init_Some in Hnew as (_ & _ & _ & Hleaf).
  destruct (init_computation_fresh _ _ _ _ _ Hinit) as (He & Hit0 & _).
  assert (Forall (λ pot, ¬ (pot == 0)%Q) (pot_sizes self0)) as Hp0.
  { apply init_computation_Some in Hinit
      as (? & ? & ? & ? & ? & ? & ? & ? & _ & _ & _ & _ & _ & _ & _ & _ & ->).
    simpl. unfold repeat_pot_sizes. apply Forall_bind.
    eapply Forall_impl; [exact Hpots|]. intros pot Hpot.
    by apply Forall_replicate. }
  assert (leaf_nodes_nn self0 = None →
          (num_leaf_nodes_approximation_iters self0 < iter self0 + 1)%Z)
    as Hl0.
  { intros Hnone. rewrite <- He in Hleaf. simpl in Hleaf.
    rewrite Hnone in Hleaf.
    destruct (pretrained_weights st leaf_nodes);
      destruct Hleaf as [? Hb]; [done|]. rewrite Hb, Hit0. lia. }
  clear Hinit He Hit0 Hleaf Hpots.
  remember (batch_size self0) as b eqn:Hb.
  revert self0 Hb Hp0 Hl0.
  induction Hrs as [|r rs Hr _ IH]; intros self0 Hb Hp0 Hl0.
  - by exists self0, [].
  - destruct (evaluate_ranges_returns self0 r) as [[self1 o] E1].
    { by rewrite <- Hb. }
    { unfold call_vars. destruct (call_mode self0) eqn:Hm; simpl; [done|].
      destruct (leaf_nodes_nn self0) as [nn|]; [done|].
      apply mode_of_leaf in Hm. unfold call_iter in Hm.
      specialize (Hl0 eq_refl). lia. }
    { exact Hp0. }
    pose proof (evaluate_ranges_setup_fields _ _ _ _ E1) as Hf.
    pose proof (evaluate_ranges_budget _ _ _ _ E1) as [Hit Hbud].
    unfold setup_fields, engine_of in Hf.
    destruct (IH self1) as (self & outs & Hall & Hlen).
    { congruence. }
    { assert (pot_sizes self1 = pot_sizes self0) as -> by congruence.
      exact Hp0. }
    { intros Hnone. rewrite Hit, Hbud.
      assert (leaf_nodes_nn self0 = None) as Hn0 by congruence.
      specialize (Hl0 Hn0). lia. }
    exists self, (o :: outs). simpl. rewrite E1. simpl. rewrite Hall.
    simpl. by rewrite Hlen.
Qed.

Lemma evaluate_all_returns_witness :
  @NextRoundValue_init toy_partial 1 1 4
    = Some (engine_of (toy_object toy_partial 4 0)) ∧
  @init_computation toy_partial (engine_of (toy_object toy_partial 4 0))
    [] [5%Q] 1 = Some (toy_object toy_partial 4 0) ∧
  ∃ self outs,
    @evaluate_all toy_partial (toy_object toy_partial 4 0)
      [uniform_ranges; pure_ranges; uniform_ranges] = Some (self, outs) ∧
    length outs = 3%nat.
Proof.
  assert (@NextRoundValue_init toy_partial 1 1 4
          = Some (engine_of (toy_object toy_partial 4 0))) as Hnew
    by (vm_compute; reflexivity).
  assert (@init_computation toy_partial
            (engine_of (toy_object toy_partial 4 0)) [] [5%Q] 1
          = Some (toy_object toy_partial 4 0)) as Hinit
    by (vm_compute; reflexivity).
  split; [exact Hnew|]. split; [exact Hinit|].
  destruct (@evaluate_all_returns toy_partial _ _ _ _ _ _ _ _
              [uniform_ranges; pure_ranges; uniform_ranges] Hnew Hinit)
    as (self & outs & Hall & Hlen).
  - constructor; [vm_compute; discriminate|constructor].
  - vm_compute. lia.
  - vm_compute. lia.
  - repeat constructor.
  - by exists self, outs.
Defined.

(** ** The setup *)

Lemma mapM_fit {A B} (g : A → list B) n l :
  Forall (λ x, length (g x) = n) l →
  mapM (λ x, fit n (g x)) l = Some (g <$> l).
Proof.
  intros Hl. apply mapM_Some_2, Forall2_fmap_r, Forall_Forall2_diag.
  eapply Forall_impl; [exact Hl|]. intros x Hx. simpl in Hx.
  unfold fit. by rewrite Hx, Nat.eqb_refl.
Qed.

Lemma mapM_fdiv ps d :
  ¬ (d == 0)%Q →
  mapM (λ p, fdiv p d) ps = Some ((λ p, p / d)%Q <$> ps).
Proof.
  intros Hd. apply mapM_Some_2, Forall2_fmap_r, Forall_Forall2_diag.
  apply Forall_forall. intros x _. by apply fdiv_Some.
Qed.

(** X6.  The setup completes when the collaborators keep their contracts:
    the feature vector of the current board and of every next board has
    the length of the probe, their masks have one entry per hand, the
    current board has a legal hand, the stack and the count of possible
    boards are not zero.  The object then holds the masks of the boards,
    in the order of the boards, the two normalization constants
    1 / count and 1 / legal hands, and in every row of the input buffers
    zeros in the range slots, then pot size / stack, then the features of
    the board. *)
Theorem setup_completes `{Collaborators} e bd pots n :
  let F := length (convert_board_to_nn_feature []) in
  let nbs := get_next_round_boards bd in
  Forall (λ nb, length (convert_board_to_nn_feature nb) = F) nbs →
  Forall (λ nb, length (get_possible_hands_mask nb) = hand_count) nbs →
  length (convert_board_to_nn_feature bd) = F →
  length (get_possible_hands_mask bd) = hand_count →
  count_true (get_possible_hands_mask bd) ≠ 0%nat →
  count_next_boards_possible_boards (e_street e) ≠ 0%Z →
  ¬ (stack == 0)%Q →
  ∃ self,
    init_computation e bd pots n = Some self ∧
    next_boards self = nbs ∧
    next_boards_mask self = get_possible_hands_mask <$> nbs ∧
    current_board_mask self = [get_possible_hands_mask bd] ∧
    root_nodes_sum_normalization self =
      (1 / inject_Z (count_next_boards_possible_boards (e_street e)))%Q ∧
    leaf_nodes_sum_normalization self =
      (1 / inject_Z (Z.of_nat (count_true (get_possible_hands_mask bd))))%Q ∧
    next_round_inputs self =
      (λ pot, (λ nb, zeros1 (hand_count * players_count)
                       ++ [(pot / stack)%Q]
                       ++ convert_board_to_nn_feature nb) <$> nbs)
        <$> pot_sizes self ∧
    current_round_inputs self =
      (λ pot, [zeros1 (hand_count * players_count)
                 ++ [(pot / stack)%Q]
                 ++ convert_board_to_nn_feature bd])
        <$> pot_sizes self.
Proof.
  intros F nbs Hfeat Hmask Hbf Hbm Hlegal Hcount Hstack.
  unfold init_computation. fold F. fold nbs.
  rewrite (mapM_fit _ _ _ Hfeat), (mapM_fit _ _ _ Hmask). simpl.
  rewrite (mapM_fdiv _ _ Hstack). simpl.
  rewrite fdiv_Some.
  2:{ intros Hz. apply Hcount. unfold Qeq in Hz. simpl in Hz. lia. }
  simpl. unfold fit. rewrite Hbm, Hbf, !Nat.eqb_refl. simpl.
  rewrite fdiv_Some.
  2:{ intros Hz. apply Hlegal. unfold Qeq in Hz. simpl in Hz. lia. }
  simpl. eexists. split; [reflexivity|]. simpl.
  repeat (split; [done|]). split.
  - rewrite <- list_fmap_compose. apply list_fmap_ext. intros _ pot _.
    simpl. by rewrite <- list_fmap_compose.
  - by rewrite <- list_fmap_compose.
Qed.

Lemma setup_completes_witness :
  ∃ self,
    @init_computation toy (engine_of (toy_object toy 0 0)) [1%Z] [5; 6]%Q 2
      = Some self ∧
    next_boards_mask self = [[false; false; true]; [true; false; false]] ∧
    current_board_mask self = [[true; false; true]].
Proof.
  destruct (@setup_completes toy (engine_of (toy_object toy 0 0)) [1%Z]
              [5; 6]%Q 2)
    as (self & Hinit & _ & Hm & Hc & _).
  - repeat constructor.
  - repeat constructor.
  - reflexivity.
  - reflexivity.
  - vm_compute. lia.
  - vm_compute. discriminate.
  - vm_compute. discriminate.
  - exists self. split; [exact Hinit|].
    rewrite Hm, Hc. split; reflexivity.
Defined.

(** ** The input buffers *)

Lemma call_mask_row_length `{Collaborators} self j m :
  after_setup self → mask (call_vars self) !! j = Some m →
  length m = hand_count.
Proof.
  intros [Hnm _ (cm & Hcm & Hcmlen & _) _ _ _] Hm.
  unfold call_vars in Hm. destruct (call_mode self); simpl in Hm.
  - by eapply Forall_lookup_1 in Hnm.
  - rewrite Hcm in Hm. destruct j; [|done]. by injection Hm as <-.
Qed.

(** The normalized ranges of one state and board: what they come from,
    and their shape. *)
Lemma call_normalized_block `{Collaborators} self ranges s j
    (tb : T3) (nr : T2) :
  after_setup self →
  has_shape3 (batch_size self) players_count hand_count ranges = true →
  call_normalized self ranges !! s = Some tb → tb !! j = Some nr →
  (∃ r m, ranges !! s = Some r ∧ mask (call_vars self) !! j = Some m ∧
          nr = (λ row, normalize_row (mask_hands m row)) <$> r) ∧
  length nr = players_count ∧
  Forall (λ row : T1, length row = hand_count) nr ∧
  length (mjoin nr) = (players_count * hand_count)%nat.
Proof.
  intros Hsetup Hshape Hs Hj.
  assert (∃ r m, ranges !! s = Some r ∧ mask (call_vars self) !! j = Some m ∧
                 nr = (λ row, normalize_row (mask_hands m row)) <$> r)
    as (r & m & Hr & Hm & ->).
  { revert Hs Hj. unfold call_normalized, call_ranges_sum.
    rewrite div_rows_total_sums. unfold fmap3, fmap2. intros Hs Hj.
    repeat at_step.
    destruct (masked_ranges_lookup _ _ _ _ _ _ _ H0 H1)
      as (r & m & ? & ? & ? & ->).
    exists r, m. by rewrite <- list_fmap_compose. }
  pose proof (call_mask_row_length _ _ _ Hsetup Hm) as Hmlen.
  destruct (has_shape3_lookup _ _ _ _ _ _ Hshape Hr) as [Hlen Hrows].
  assert (Forall (λ row : T1, length row = hand_count)
            ((λ row, normalize_row (mask_hands m row)) <$> r)) as Hnr.
  { apply Forall_fmap. eapply Forall_impl; [exact Hrows|].
    intros row Hrow. simpl in Hrow. simpl.
    unfold normalize_row, mask_hands.
    rewrite length_fmap, length_zip_with. lia. }
  split; [by exists r, m|]. split; [by rewrite length_fmap|].
  split; [done|].
  by rewrite (length_join_same _ _ Hnr), length_fmap, Hlen.
Qed.

(** A row of the input buffer after the ranges were written: the slots
    after the ranges are those of the row before. *)
Lemma call_inputs_row `{Collaborators} self ranges s j (tb : T2) row :
  after_setup self →
  has_shape3 (batch_size self) players_count hand_count ranges = true →
  call_inputs self ranges !! s = Some tb → tb !! j = Some row →
  ∃ ib old ntb nr,
    nn_inputs (call_vars self) !! s = Some ib ∧ ib !! j = Some old ∧
    call_normalized self ranges !! s = Some ntb ∧ ntb !! j = Some nr ∧
    row = mjoin nr ++ drop (players_count * hand_count) old ∧
    drop (players_count * hand_count) row
      = drop (players_count * hand_count) old.
Proof.
  intros Hsetup Hshape Hs Hj. unfold call_inputs, write_ranges in Hs.
  repeat at_step.
  destruct (call_normalized_block _ _ _ _ _ _ Hsetup Hshape H1 H3)
    as (_ & _ & _ & Hlen).
  eexists _, _, _, _. repeat (split; [done|]).
  by rewrite drop_app_length'.
Qed.

Lemma init_computation_slots `{Collaborators} e bd pots n self :
  init_computation e bd pots n = Some self → slots_after_ranges self.
Proof.
  intros (feats & masks & npot & rnorm & cmask & bfeat & cpot & lnorm
          & Hfeats & _ & Hnpot & _ & _ & Hbfeat & Hcpot & _ & ->)
    %init_computation_Some.
  apply mapM_Some_1 in Hfeats, Hnpot, Hcpot.
  apply fit_Some in Hbfeat as [-> _].
  split; simpl; intros s j tb row Hs Hj; repeat at_step.
  - destruct (Forall2_lookup_r _ _ _ _ _ Hnpot H0) as (pot & Hpot & Hdiv).
    destruct (Forall2_lookup_r _ _ _ _ _ Hfeats H1) as (nb & Hnb & Hfit).
    apply fdiv_Some_inv in Hdiv as [_ ->].
    apply fit_Some in Hfit as [-> _].
    exists pot, nb. split; [done|]. split; [done|].
    apply drop_app_length'. unfold zeros1. rewrite length_replicate.
    unfold players_count. lia.
  - destruct (Forall2_lookup_r _ _ _ _ _ Hcpot H0) as (pot & Hpot & Hdiv).
    apply fdiv_Some_inv in Hdiv as [_ ->].
    destruct j as [|j]; [|done]. injection Hj as <-.
    exists pot. split; [done|]. split; [done|].
    apply drop_app_length'. unfold zeros1. rewrite length_replicate.
    unfold players_count. lia.
Qed.

Lemma evaluate_ranges_slots `{Collaborators} self ranges self' out :
  after_setup self → slots_after_ranges self →
  evaluate_ranges self ranges = Some (self', out) →
  slots_after_ranges self'.
Proof.
  intros Hsetup [Hnext Hcur]
    (nn & mv & Hshape & _ & _ & -> & _)%evaluate_ranges_Some.
  unfold slots_after_ranges, call_state.
  cbn [update next_round_inputs current_round_inputs pot_sizes next_boards
       current_board].
  destruct (call_mode self) eqn:Hmode; split; try assumption;
    intros s j tb row Hs Hj;
    destruct (call_inputs_row _ _ _ _ _ _ Hsetup Hshape Hs Hj)
      as (ib & old & _ & _ & Hib & Hold & _ & _ & _ & Hdrop);
    unfold call_vars in Hib; rewrite Hmode in Hib; simpl in Hib;
    rewrite Hdrop; eauto.
Qed.

(** X7.  After a setup and any number of calls, every row of the two input
    buffers still holds, after the range slots, the pot size of its state
    divided by the stack and then the features of its board; and the
    masks are still those of the boards: the calls write the range slots
    only. *)
Theorem setup_slots_persist `{Collaborators} e bd pots n self0 rs self outs :
  init_computation e bd pots n = Some self0 →
  evaluate_all self0 rs = Some (self, outs) →
  slots_after_ranges self ∧
  current_board self = bd ∧
  next_boards self = get_next_round_boards bd ∧
  pot_sizes self = repeat_pot_sizes pots n ∧
  (∀ j m, next_boards_mask self !! j = Some m →
          ∃ nb, next_boards self !! j = Some nb ∧
                m = get_possible_hands_mask nb) ∧
  current_board_mask self = [get_possible_hands_mask bd].
Proof.
  intros Hinit Hall.
  pose proof (evaluate_all_setup_fields _ _ _ _ Hall) as Hf.
  unfold setup_fields in Hf.
  split.
  - apply (evaluate_all_inv
             (λ x, after_setup x ∧ slots_after_ranges x) (λ _, True)
             rs self0 self outs); [|apply Forall_any| |done].
    + intros a r b o [Ha Hs] _ Hcall. split.
      * by eapply evaluate_ranges_after_setup.
      * by eapply evaluate_ranges_slots.
    + split; [by eapply init_computation_after_setup|
              by eapply init_computation_slots].
  - apply init_computation_Some in Hinit
      as (feats & masks & npot & rnorm & cmask & bfeat & cpot & lnorm
          & _ & Hmasks & _ & _ & Hcmask & _ & _ & _ & ->).
    simpl in Hf. apply fit_Some in Hcmask as [-> _].
    assert (current_board self = bd) as Hbd by congruence.
    assert (next_boards self = get_next_round_boards bd) as Hnbs
      by congruence.
    assert (pot_sizes self = repeat_pot_sizes pots n) as Hps by congruence.
    assert (next_boards_mask self = masks) as Hnm by congruence.
    assert (current_board_mask self = [get_possible_hands_mask bd]) as Hcm
      by congruence.
    repeat (split; [done|]). split; [|done].
    rewrite Hnm, Hnbs.
    intros j m Hm. apply mapM_Some_1 in Hmasks.
    destruct (Forall2_lookup_r _ _ _ _ _ Hmasks Hm) as (nb & Hnb & Hfit).
    apply fit_Some in Hfit as [-> _]. eauto.
Qed.

Lemma setup_slots_persist_witness :
  @init_computation toy (engine_of (toy_object toy 1 0)) [] [5%Q] 1
    = Some (toy_object toy 1 0) ∧
  @evaluate_all toy (toy_object toy 1 0) (replicate 3 uniform_ranges)
    = Some (toy_object toy 1 3,
            [toy_return toy 1 0; toy_return toy 1 1; toy_return toy 1 2]) ∧
  next_round_inputs (toy_object toy 1 3)
    ≠ next_round_inputs (toy_object toy 1 0) ∧
  @slots_after_ranges toy (toy_object toy 1 3).
Proof.
  assert (@init_computation toy (engine_of (toy_object toy 1 0)) [] [5%Q] 1
          = Some (toy_object toy 1 0)) as Hinit
    by (vm_compute; reflexivity).
  assert (@evaluate_all toy (toy_object toy 1 0) (replicate 3 uniform_ranges)
          = Some (toy_object toy 1 3,
                  [toy_return toy 1 0; toy_return toy 1 1;
                   toy_return toy 1 2])) as Hall
    by (vm_compute; reflexivity).
  split; [exact Hinit|]. split; [exact Hall|].
  split; [vm_compute; discriminate|].
  exact (proj1 (@setup_slots_persist toy _ _ _ _ _ _ _ _ Hinit Hall)).
Defined.

(** ** The same call again *)

Lemma zip_with_idem {A B} (f : A → B → A) (P : B → Prop) l k :
  Forall P k → (∀ x y, P y → f (f x y) y = f x y) →
  zip_with f (zip_with f l k) k = zip_with f l k.
Proof.
  intros Hk Hf. revert l. induction Hk as [|y k Hy _ IH]; intros [|x l];
    try done.
  simpl. by rewrite Hf, IH.
Qed.

Lemma write_ranges_idem `{Collaborators} inp (nz : T4) :
  Forall (Forall (λ nr : T2,
            length (mjoin nr) = (players_count * hand_count)%nat)) nz →
  write_ranges (write_ranges inp nz) nz = write_ranges inp nz.
Proof.
  intros Hnz. unfold write_ranges.
  apply (zip_with_idem _ _ _ _ Hnz). intros x y Hy.
  apply (zip_with_idem _ _ _ _ Hy). intros row nr Hnr. simpl in Hnr.
  by rewrite drop_app_length'.
Qed.

Lemma call_normalized_lengths `{Collaborators} self ranges :
  after_setup self →
  has_shape3 (batch_size self) players_count hand_count ranges = true →
  Forall (Forall (λ nr : T2,
            length (mjoin nr) = (players_count * hand_count)%nat))
    (call_normalized self ranges).
Proof.
  intros Hsetup Hshape. apply Forall_lookup. intros s tb Hs.
  apply Forall_lookup. intros j nr Hj.
  by destruct (call_normalized_block _ _ _ _ _ _ Hsetup Hshape Hs Hj)
    as (_ & _ & _ & ?).
Qed.

Lemma call_vars_after `{Collaborators} self ranges nn mv :
  call_mode (call_state self ranges nn mv) = call_mode self →
  call_vars (call_state self ranges nn mv) =
  {| BC := BC (call_vars self);
     neural_network := neural_network (call_vars self);
     nn_inputs := call_inputs self ranges;
     mask := mask (call_vars self);
     sum_normalization := sum_normalization (call_vars self) |}.
Proof.
  unfold call_vars at 1. intros ->. unfold call_vars, call_state.
  by destruct (call_mode self).
Qed.

(** X8.  After a setup, a second call on the same ranges in the same mode
    returns the same array as the first, and leaves the input and output
    buffers of the mode as the first call left them: a call reads, of
    what the calls write, only the counter. *)
Theorem same_call_same_result `{Collaborators}
    e bd pots n self0 rs self outs ranges self1 out1 self2 out2 :
  init_computation e bd pots n = Some self0 →
  evaluate_all self0 rs = Some (self, outs) →
  evaluate_ranges self ranges = Some (self1, out1) →
  evaluate_ranges self1 ranges = Some (self2, out2) →
  call_mode self1 = call_mode self →
  out2 = out1 ∧
  nn_inputs (select self2 (call_mode self))
    = nn_inputs (select self1 (call_mode self)) ∧
  deref self2 (nn_outputs_ref (call_mode self))
    = deref self1 (nn_outputs_ref (call_mode self)).
Proof.
  intros Hinit Hall Hcall1 Hcall2 Hmode.
  pose proof (evaluate_all_after_setup _ _ _ _ Hall
                (init_computation_after_setup _ _ _ _ _ Hinit)) as Hsetup.
  apply evaluate_ranges_Some in Hcall1
    as (nn & mv & Hshape & Hnn & Hmv & -> & ->).
  apply evaluate_ranges_Some in Hcall2
    as (nn' & mv' & _ & Hnn' & Hmv' & -> & ->).
  pose proof (call_vars_after _ _ _ _ Hmode) as Hvars.
  assert (mv' = mv) as -> by (simpl in Hmv'; congruence).
  assert (nn' = nn) as ->.
  { rewrite Hvars in Hnn'. simpl in Hnn'. congruence. }
  assert (call_normalized (call_state self ranges nn mv) ranges
          = call_normalized self ranges) as Hnz.
  { unfold call_normalized, call_ranges_sum, call_masked.
    by rewrite Hvars. }
  assert (call_values_norm (call_state self ranges nn mv) ranges
          = call_values_norm self ranges) as Hvn.
  { unfold call_values_norm, call_ranges_sum, call_masked.
    by rewrite Hvars. }
  assert (call_inputs (call_state self ranges nn mv) ranges
          = call_inputs self ranges) as Hin.
  { unfold call_inputs at 1. rewrite Hnz, Hvars. simpl.
    unfold call_inputs. apply write_ranges_idem.
    by apply call_normalized_lengths. }
  assert (call_outputs (call_state self ranges nn mv) ranges nn
          = call_outputs self ranges nn) as Hout.
  { unfold call_outputs. by rewrite Hin, Hvn, Hvars. }
  destruct (call_state_buffers (call_state self ranges nn mv) ranges nn mv)
    as [Hb2 Hi2].
  rewrite Hmode in Hb2, Hi2.
  destruct (call_state_buffers self ranges nn mv) as [Hb1 Hi1].
  split; [|split].
  - unfold call_return, call_clipped. by rewrite Hout, Hvars.
  - by rewrite Hi2, Hi1.
  - by rewrite Hb2, Hb1.
Qed.

Lemma same_call_same_result_witness :
  @init_computation toy (engine_of (toy_object toy 0 0)) [] [5%Q] 1
    = Some (toy_object toy 0 0) ∧
  @evaluate_all toy (toy_object toy 0 0) [pure_ranges]
    = Some ((toy_result toy 0 0 pure_ranges).1,
            [(toy_result toy 0 0 pure_ranges).2]) ∧
  @evaluate_ranges toy (toy_result toy 0 0 pure_ranges).1 uniform_ranges
    = Some (default (no_object, [])
              (@evaluate_ranges toy (toy_result toy 0 0 pure_ranges).1
                 uniform_ranges)) ∧
  (default (no_object, [])
     (@evaluate_ranges toy
        (default (no_object, [])
           (@evaluate_ranges toy (toy_result toy 0 0 pure_ranges).1
              uniform_ranges)).1 uniform_ranges)).2
  = (default (no_object, [])
       (@evaluate_ranges toy (toy_result toy 0 0 pure_ranges).1
          uniform_ranges)).2.
Proof.
  assert (@init_computation toy (engine_of (toy_object toy 0 0)) [] [5%Q] 1
          = Some (toy_object toy 0 0)) as Hinit
    by (vm_compute; reflexivity).
  assert (@evaluate_all toy (toy_object toy 0 0) [pure_ranges]
          = Some ((toy_result toy 0 0 pure_ranges).1,
                  [(toy_result toy 0 0 pure_ranges).2])) as Hall
    by (vm_compute; reflexivity).
  set (first := default (no_object, [])
                  (@evaluate_ranges toy (toy_result toy 0 0 pure_ranges).1
                     uniform_ranges)).
  set (second := default (no_object, [])
                   (@evaluate_ranges toy first.1 uniform_ranges)).
  assert (@evaluate_ranges toy (toy_result toy 0 0 pure_ranges).1
            uniform_ranges = Some (first.1, first.2)) as Hcall1
    by (vm_compute; reflexivity).
  assert (@evaluate_ranges toy first.1 uniform_ranges
          = Some (second.1, second.2)) as Hcall2
    by (vm_compute; reflexivity).
  split; [exact Hinit|]. split; [exact Hall|].
  split; [vm_compute; reflexivity|].
  apply (@same_call_same_result toy _ _ _ _ _ _ _ _ _ _ _ _ _
           Hinit Hall Hcall1 Hcall2).
  reflexivity.
Defined.

(** ** The ranges given to the model *)

Lemma qsum_div row s :
  (qsum ((λ x, x / s) <$> row) == qsum row / s)%Q.
Proof.
  unfold qsum. induction row as [|x row IH].
  - simpl. unfold Qdiv. ring.
  - rewrite fmap_cons. cbn [foldr]. rewrite IH. unfold Qdiv. ring.
Qed.

Lemma qsum_normalize_row row :
  if Qeq_bool (qsum row) 0
  then (qsum (normalize_row row) == 0)%Q
  else (qsum (normalize_row row) == 1)%Q.
Proof.
  unfold normalize_row, replace_zero.
  destruct (Qeq_bool (qsum row) 0) eqn:E; rewrite qsum_div.
  - apply Qeq_bool_iff in E. rewrite E. reflexivity.
  - apply Qeq_bool_neq in E. by field.
Qed.

(** X9.  After a call that completes, every row of the input buffer of
    the mode starts with PC ranges of HC entries, one per player; the
    range of a player sums to one when the sum of the player's masked
    range is not zero, and to zero otherwise. *)
Theorem model_input_ranges_sum_to_one `{Collaborators}
    e bd pots n self0 rs self outs ranges self' out :
  init_computation e bd pots n = Some self0 →
  evaluate_all self0 rs = Some (self, outs) →
  evaluate_ranges self ranges = Some (self', out) →
  ∀ s j (tb : T2) row,
    nn_inputs (select self' (call_mode self)) !! s = Some tb →
    tb !! j = Some row →
    ∃ (nr : T2) (stb : T2) (sums : T1),
      take (players_count * hand_count) row = mjoin nr ∧
      length nr = players_count ∧
      Forall (λ nrow : T1, length nrow = hand_count) nr ∧
      call_ranges_sum self ranges !! s = Some stb ∧
      stb !! j = Some sums ∧
      Forall2 (λ (nrow : T1) d,
                 if Qeq_bool d 0 then (qsum nrow == 0)%Q
                 else (qsum nrow == 1)%Q) nr sums.
Proof.
  intros Hinit Hall Hcall s j tb row Hs Hj.
  pose proof (evaluate_all_after_setup _ _ _ _ Hall
                (init_computation_after_setup _ _ _ _ _ Hinit)) as Hsetup.
  apply evaluate_ranges_Some in Hcall
    as (nn & mv & Hshape & _ & _ & -> & _).
  destruct (call_state_buffers self ranges nn mv) as [_ Hbuf].
  rewrite Hbuf in Hs.
  destruct (call_inputs_row _ _ _ _ _ _ Hsetup Hshape Hs Hj)
    as (ib & old & ntb & nr & _ & _ & Hntb & Hnr & -> & _).
  destruct (call_normalized_block _ _ _ _ _ _ Hsetup Hshape Hntb Hnr)
    as ((r & m & Hr & Hm & ->) & Hlen & Hrows & Hjoin).
  assert (j < BC (call_vars self))%nat as Hjlt.
  { rewrite <- (call_mask_length _ Hsetup). by eapply lookup_lt_Some. }
  destruct (call_blocks self ranges s j r m Hr Hm Hjlt)
    as (_ & _ & (stb & Hstb & Hsums)).
  eexists _, stb, _. split; [by apply take_app_length'|].
  split; [done|]. split; [done|]. split; [done|]. split; [done|].
  apply Forall2_fmap, Forall_Forall2_diag, Forall_forall.
  intros row _. apply qsum_normalize_row.
Qed.

Lemma model_input_ranges_sum_to_one_witness :
  @init_computation toy (engine_of (toy_object toy 0 0)) [] [5%Q] 1
    = Some (toy_object toy 0 0) ∧
  @evaluate_all toy (toy_object toy 0 0) [] = Some (toy_object toy 0 0, []) ∧
  @evaluate_ranges toy (toy_object toy 0 0) pure_ranges
    = Some (toy_result toy 0 0 pure_ranges) ∧
  ∃ (row : T1) (nr : T2) (sums : T1),
    (tb ← next_round_inputs (toy_result toy 0 0 pure_ranges).1 !! 0%nat;
     tb !! 0%nat) = Some row ∧
    take 6 row = mjoin nr ∧
    Forall2 (λ (nrow : T1) d,
               if Qeq_bool d 0 then (qsum nrow == 0)%Q
               else (qsum nrow == 1)%Q) nr sums.
Proof.
  assert (@init_computation toy (engine_of (toy_object toy 0 0)) [] [5%Q] 1
          = Some (toy_object toy 0 0)) as Hinit
    by (vm_compute; reflexivity).
  assert (@evaluate_all toy (toy_object toy 0 0) []
          = Some (toy_object toy 0 0, [])) as Hall by reflexivity.
  assert (@evaluate_ranges toy (toy_object toy 0 0) pure_ranges
          = Some ((toy_result toy 0 0 pure_ranges).1,
                  (toy_result toy 0 0 pure_ranges).2)) as Hcall
    by (vm_compute; reflexivity).
  split; [exact Hinit|]. split; [exact Hall|].
  split; [vm_compute; reflexivity|].
  destruct (next_round_inputs (toy_result toy 0 0 pure_ranges).1 !! 0%nat)
    as [tb|] eqn:Htb; [|vm_compute in Htb; discriminate].
  destruct (tb !! 0%nat) as [row|] eqn:Hrow.
  2:{ vm_compute in Htb. injection Htb as <-. discriminate Hrow. }
  destruct (@model_input_ranges_sum_to_one toy _ _ _ _ _ _ _ _ _ _ _
              Hinit Hall Hcall 0%nat 0%nat tb row Htb Hrow)
    as (nr & stb & sums & Htake & _ & _ & _ & _ & Hsum).
  exists row, nr, sums. split; [|split; [exact Htake|exact Hsum]].
  simpl. exact Hrow.
Defined.

(** ** The accumulated scale *)

Lemma qsum_mask_hands_nonneg m row :
  Forall (λ x, 0 <= x)%Q row → (0 <= qsum (mask_hands m row))%Q.
Proof.
  intros Hrow. apply qsum_nonneg. unfold mask_hands.
  apply Forall_lookup. intros i y Hy. at_step.
  eapply Forall_lookup_1 in Hrow; [|done]. simpl in Hrow.
  destruct x0; simpl; nra.
Qed.

Lemma swap_players_nonneg rs :
  Forall (λ x, 0 <= x)%Q rs → Forall (λ x, 0 <= x)%Q (swap_players rs).
Proof.
  intros Hrs.
  assert (∀ i, (0 <= default 0 (rs !! i))%Q) as Hd.
  { intros i. destruct (rs !! i) as [x|] eqn:E; simpl; [|lra].
    by eapply Forall_lookup_1 in Hrs. }
  unfold swap_players. apply Forall_insert; [|apply Hd].
  apply Forall_insert; [|apply Hd].
  unfold zeros1. apply Forall_replicate. lra.
Qed.

(** The scales of a call on ranges without negative entry are not
    negative. *)
Lemma call_values_norm_nonneg self ranges s j p c :
  nonneg3 ranges →
  at3 (call_values_norm self ranges) s j p = Some c → (0 <= c)%Q.
Proof.
  intros Hpos. unfold at3, at2, call_values_norm, swap_sums, fmap2.
  intros Hc. repeat at_step.
  destruct (sum_axis3_lookup _ _ _ _ _ _ _ H H0)
    as (r & m & Hr & _ & _ & ->).
  eapply Forall_lookup_1 in Hpos; [|exact Hr]. simpl in Hpos.
  assert (Forall (λ x, 0 <= x)%Q
            (swap_players ((λ x : T1, qsum (mask_hands m x)) <$> r)))
    as Hall.
  { apply swap_players_nonneg, Forall_fmap.
    eapply Forall_impl; [exact Hpos|]. intros row Hrow. simpl.
    by apply qsum_mask_hands_nonneg. }
  by eapply Forall_lookup_1 in Hall.
Qed.

Lemma at3_add3 a b s j p y :
  at3 (add3 a b) s j p = Some y →
  ∃ x z, at3 a s j p = Some x ∧ at3 b s j p = Some z ∧ y = (x + z)%Q.
Proof.
  unfold at3, at2, add3, add2. intros Hy.
  repeat at_step. eexists _, _. by at_close.
Qed.

Lemma at3_zeros3 b B P s j p y : at3 (zeros3 b B P) s j p = Some y → y = 0%Q.
Proof.
  unfold at3, zeros3. intros Hy. at_step. at_step.
  by apply at2_zeros2 in Hy.
Qed.

Lemma evaluate_ranges_norm_step `{Collaborators} self ranges self' out
    s j p new :
  evaluate_ranges self ranges = Some (self', out) →
  nonneg3 ranges →
  at3 (cumulative_norm self') s j p = Some new →
  ∃ old, at3 (cumulative_norm self) s j p = Some old ∧ (old <= new)%Q.
Proof.
  intros (nn & mv & _ & _ & _ & -> & _)%evaluate_ranges_Some Hpos.
  unfold call_state. simpl.
  destruct (call_accumulates self).
  - intros (old & c & Hold & Hc & ->)%at3_add3.
    apply (call_values_norm_nonneg _ _ _ _ _ _ Hpos) in Hc.
    exists old. split; [done|]. lra.
  - intros Hnew. exists new. split; [done|]. lra.
Qed.

(** X10.  With ranges that have no negative entry, the accumulated scale
    never decreases and never is negative: on a call after a setup and
    any number of calls, every entry of [cumulative_norm] after the call
    is at least the entry before, which is at least zero. *)
Theorem accumulated_scale_grows `{Collaborators}
    e bd pots n self0 rs self outs ranges self' out :
  init_computation e bd pots n = Some self0 →
  evaluate_all self0 rs = Some (self, outs) →
  evaluate_ranges self ranges = Some (self', out) →
  Forall nonneg3 rs →
  nonneg3 ranges →
  ∀ s j p new,
    at3 (cumulative_norm self') s j p = Some new →
    ∃ old,
      at3 (cumulative_norm self) s j p = Some old ∧
      (0 <= old)%Q ∧ (old <= new)%Q.
Proof.
  intros Hinit Hall Hcall Hrs Hpos s j p new Hnew.
  destruct (evaluate_ranges_norm_step _ _ _ _ _ _ _ _ Hcall Hpos Hnew)
    as (old & Hold & Hle).
  exists old. split; [done|]. split; [|done].
  clear Hnew Hle. revert s j p old Hold.
  apply (evaluate_all_inv
           (λ x, ∀ s j p v, at3 (cumulative_norm x) s j p = Some v →
                            (0 <= v)%Q)
           nonneg3 rs self0 self outs); [|done| |done].
  - intros a r b o Ha Hr Hstep s j p v Hv.
    destruct (evaluate_ranges_norm_step _ _ _ _ _ _ _ _ Hstep Hr Hv)
      as (w & Hw & Hwv).
    apply Ha in Hw. lra.
  - intros s j p v Hv.
    destruct (init_computation_fresh _ _ _ _ _ Hinit)
      as (_ & _ & _ & Hn0 & _).
    rewrite Hn0 in Hv. apply at3_zeros3 in Hv. subst. lra.
Qed.

Lemma accumulated_scale_grows_witness :
  @init_computation toy (engine_of (toy_object toy 0 0)) [] [5%Q] 1
    = Some (toy_object toy 0 0) ∧
  @evaluate_all toy (toy_object toy 0 0) (replicate 2 uniform_ranges)
    = Some (toy_object toy 0 2,
            [toy_return toy 0 0; toy_return toy 0 1]) ∧
  @evaluate_ranges toy (toy_object toy 0 2) pure_ranges
    = Some (toy_result toy 0 2 pure_ranges) ∧
  at3 (cumulative_norm (toy_result toy 0 2 pure_ranges).1) 0 0 0
    = Some (972 # 729)%Q ∧
  ∃ old,
    at3 (cumulative_norm (toy_object toy 0 2)) 0 0 0 = Some old ∧
    (0 <= old)%Q ∧ (old <= 972 # 729)%Q.
Proof.
  assert (@init_computation toy (engine_of (toy_object toy 0 0)) [] [5%Q] 1
          = Some (toy_object toy 0 0)) as Hinit
    by (vm_compute; reflexivity).
  assert (@evaluate_all toy (toy_object toy 0 0) (replicate 2 uniform_ranges)
          = Some (toy_object toy 0 2,
                  [toy_return toy 0 0; toy_return toy 0 1])) as Hall
    by (vm_compute; reflexivity).
  assert (@evaluate_ranges toy (toy_object toy 0 2) pure_ranges
          = Some ((toy_result toy 0 2 pure_ranges).1,
                  (toy_result toy 0 2 pure_ranges).2)) as Hcall
    by (vm_compute; reflexivity).
  assert (at3 (cumulative_norm (toy_result toy 0 2 pure_ranges).1) 0 0 0
          = Some (972 # 729)%Q) as Hnew by (vm_compute; reflexivity).
  split; [exact Hinit|]. split; [exact Hall|].
  split; [vm_compute; reflexivity|]. split; [exact Hnew|].
  apply (@accumulated_scale_grows toy _ _ _ _ _ _ _ _ _ _ _
           Hinit Hall Hcall); [| |exact Hnew].
  - repeat constructor; vm_compute; discriminate.
  - repeat constructor; vm_compute; discriminate.
Defined.

(** ** The accumulated values *)

Lemma at4_add4 a b s j p h y :
  at4 (add4 a b) s j p h = Some y →
  ∃ x z, at4 a s j p h = Some x ∧ at4 b s j p h = Some z ∧ y = (x + z)%Q.
Proof.
  unfold at4, add4. intros Hy. at_step. at_step.
  apply at3_add3 in Hy as (x' & z & Hx & Hz & ->).
  exists x', z. by at_close.
Qed.

Lemma at4_clip_outputs t mv s j p h y :
  at4 (clip_outputs t mv) s j p h = Some y →
  ∃ x m, at4 t s j p h = Some x ∧ mv !! s = Some m ∧ y = clip (- m) m x.
Proof.
  unfold at4, at3, at2, clip_outputs, fmap3, fmap2. intros Hy.
  repeat at_step. eexists _, _. by at_close.
Qed.

Lemma at4_zeros4 b B P I s j p h y :
  at4 (zeros4 b B P I) s j p h = Some y → y = 0%Q.
Proof.
  unfold at4, zeros4. intros Hy. at_step. at_step.
  by apply at3_zeros3 in Hy.
Qed.

(** The number of calls so far that added to the accumulator. *)
Lemma accumulating_calls_step `{Collaborators} self :
  let M := Z.max cfr_skip_iters (num_leaf_nodes_approximation_iters self) in
  (call_accumulates self = true →
   inject_Z (Z.max 0 (iter self + 1 - M))
   == inject_Z (Z.max 0 (iter self - M)) + 1)%Q ∧
  (inject_Z (Z.max 0 (iter self - M))
   <= inject_Z (Z.max 0 (iter self + 1 - M)))%Q.
Proof.
  intros M. split.
  - unfold call_accumulates, call_iter. intros [? ?]%accumulates_true.
    rewrite <- (inject_Z_plus _ 1). apply inject_Z_injective. lia.
  - rewrite <- Zle_Qle. lia.
Qed.

Lemma evaluate_ranges_cfvs_step `{Collaborators} self ranges self' out
    s j p h new :
  evaluate_ranges self ranges = Some (self', out) →
  at4 (cumulative_cfvs self') s j p h = Some new →
  ∃ old,
    at4 (cumulative_cfvs self) s j p h = Some old ∧
    (call_accumulates self = false ∧ new = old ∨
     call_accumulates self = true ∧
     ∃ pot x, pot_sizes self !! s = Some pot ∧
              new = (old + clip (- (stack / pot)) (stack / pot) x)%Q).
Proof.
  intros (nn & mv & _ & _ & Hmv & -> & _)%evaluate_ranges_Some.
  unfold call_state. simpl.
  destruct (call_accumulates self).
  - intros (old & c & Hold & Hc & ->)%at4_add4.
    apply at4_clip_outputs in Hc as (x & m & _ & Hm & ->).
    destruct (max_values_lookup _ _ _ _ Hmv Hm) as (pot & Hpot & _ & ->).
    exists old. split; [done|]. right. split; [done|]. by exists pot, x.
  - intros Hnew. exists new. split; [done|]. by left.
Qed.

(** X11.  After a setup with positive pot sizes and a stack that is not
    negative, and any number of calls, every entry of [cumulative_cfvs]
    lies within plus or minus k * stack / pot size, where k is the number
    of calls whose counter was above the skip threshold and above the
    leaf budget: the counter minus the larger of the two, or 0. *)
Theorem accumulated_values_bound `{Collaborators}
    e bd pots n self0 rs self outs :
  init_computation e bd pots n = Some self0 →
  evaluate_all self0 rs = Some (self, outs) →
  (0 <= stack)%Q →
  Forall (λ pot, 0 < pot)%Q pots →
  ∀ s j p h v, at4 (cumulative_cfvs self) s j p h = Some v →
    ∃ pot k,
      pot_sizes self !! s = Some pot ∧ (0 < pot)%Q ∧
      k = inject_Z (Z.max 0
            (iter self - Z.max cfr_skip_iters
                           (num_leaf_nodes_approximation_iters self))) ∧
      (- (k * (stack / pot)) <= v <= k * (stack / pot))%Q.
Proof.
  intros Hinit Hall Hstack Hpots.
  pose proof (init_computation_pot_sizes _ _ _ _ _ Hinit Hpots) as Hpos0.
  apply (evaluate_all_inv
           (λ x, Forall (λ pot, 0 < pot)%Q (pot_sizes x) ∧
                 length (pot_sizes x) = batch_size x ∧
                 ∀ s j p h v, at4 (cumulative_cfvs x) s j p h = Some v →
                   ∃ pot k,
                     pot_sizes x !! s = Some pot ∧ (0 < pot)%Q ∧
                     k = inject_Z (Z.max 0
                           (iter x - Z.max cfr_skip_iters
                              (num_leaf_nodes_approximation_iters x))) ∧
                     (- (k * (stack / pot)) <= v <= k * (stack / pot))%Q)
           (λ _, True) rs self0 self outs) in Hall as (_ & _ & Hall);
    [done| |apply Forall_any|].
  - intros a r b o (Hpa & Hla & Ha) _ Hstep.
    pose proof (evaluate_ranges_setup_fields _ _ _ _ Hstep) as Hf.
    assert (pot_sizes b = pot_sizes a) as Hp
      by (unfold setup_fields in Hf; congruence).
    assert (batch_size b = batch_size a) as Hb
      by (unfold setup_fields in Hf; congruence).
    assert (num_leaf_nodes_approximation_iters b
            = num_leaf_nodes_approximation_iters a) as Hl.
    { unfold setup_fields in Hf.
      assert (engine_of b = engine_of a) as He by congruence.
      by injection He. }
    assert (iter b = (iter a + 1)%Z) as Hi.
    { apply evaluate_ranges_Some in Hstep
        as (? & ? & _ & _ & _ & -> & _). apply call_state_iter. }
    rewrite Hp, Hb. split; [done|]. split; [done|].
    intros s j p h v Hv.
    destruct (evaluate_ranges_cfvs_step _ _ _ _ _ _ _ _ _ Hstep Hv)
      as (old & Hold & Hcase).
    destruct (Ha _ _ _ _ _ Hold) as (pot & k & Hpot & Hpos & -> & Hk).
    exists pot, (inject_Z (Z.max 0
                   (iter b - Z.max cfr_skip_iters
                      (num_leaf_nodes_approximation_iters b)))).
    split; [done|]. split; [done|]. split; [done|].
    rewrite Hl, Hi.
    destruct (accumulating_calls_step a) as [Hacc Hmono].
    assert (0 <= stack / pot)%Q as Hm by (apply Qle_shift_div_l; lra).
    destruct Hcase as [[_ ->]|[Hyes (pot' & x & Hpot' & ->)]].
    + nra.
    + assert (pot' = pot) as -> by congruence.
      specialize (Hacc Hyes).
      pose proof (clip_bounds _ x Hm). rewrite Hacc. nra.
  - split; [done|].
    destruct (init_computation_fresh _ _ _ _ _ Hinit)
      as (_ & Hi0 & _ & _ & Hc0 & _).
    pose proof (init_computation_after_setup _ _ _ _ _ Hinit) as Hs.
    split; [apply Hs|].
    intros s j p h v Hv. rewrite Hc0 in Hv.
    pose proof Hv as Hv0. apply at4_zeros4 in Hv0. subst v.
    unfold at4 in Hv.
    destruct (zeros4 _ _ _ _ !! s) as [r|] eqn:E; [|done].
    unfold zeros4 in E. apply lookup_replicate in E as [_ Hlt].
    destruct (lookup_lt_is_Some_2 (pot_sizes self0) s) as [pot Hpot].
    { by rewrite (setup_pot_sizes _ Hs). }
    exists pot, (inject_Z (Z.max 0
                   (iter self0 - Z.max cfr_skip_iters
                      (num_leaf_nodes_approximation_iters self0)))).
    split; [done|]. split; [by eapply Forall_lookup_1 in Hpos0|].
    split; [done|].
    assert (0 < pot)%Q by by eapply Forall_lookup_1 in Hpos0.
    assert (0 <= stack / pot)%Q as Hm by (apply Qle_shift_div_l; lra).
    assert (0 <= inject_Z (Z.max 0
                   (iter self0 - Z.max cfr_skip_iters
                      (num_leaf_nodes_approximation_iters self0))))%Q
      by (change 0%Q with (inject_Z 0); rewrite <- Zle_Qle; lia).
    nra.
Qed.

Lemma accumulated_values_bound_witness :
  @init_computation toy (engine_of (toy_object toy 0 0)) [] [5%Q] 1
    = Some (toy_object toy 0 0) ∧
  @evaluate_all toy (toy_object toy 0 0) (replicate 3 uniform_ranges)
    = Some (toy_object toy 0 3,
            [toy_return toy 0 0; toy_return toy 0 1; toy_return toy 0 2]) ∧
  (0 <= @stack toy)%Q ∧
  Forall (λ pot, 0 < pot)%Q [5%Q] ∧
  at4 (cumulative_cfvs (toy_object toy 0 3)) 0 0 0 1 = Some (100 # 25)%Q ∧
  ∃ pot k,
    pot_sizes (toy_object toy 0 3) !! 0%nat = Some pot ∧ (0 < pot)%Q ∧
    k = inject_Z (Z.max 0
          (iter (toy_object toy 0 3) - Z.max (@cfr_skip_iters toy)
             (num_leaf_nodes_approximation_iters (toy_object toy 0 3)))) ∧
    (- (k * (@stack toy / pot)) <= 100 # 25 <= k * (@stack toy / pot))%Q.
Proof.
  assert (@init_computation toy (engine_of (toy_object toy 0 0)) [] [5%Q] 1
          = Some (toy_object toy 0 0)) as Hinit
    by (vm_compute; reflexivity).
  assert (@evaluate_all toy (toy_object toy 0 0) (replicate 3 uniform_ranges)
          = Some (toy_object toy 0 3,
                  [toy_return toy 0 0; toy_return toy 0 1;
                   toy_return toy 0 2])) as Hall
    by (vm_compute; reflexivity).
  assert (0 <= @stack toy)%Q as Hstack by (vm_compute; discriminate).
  assert (Forall (λ pot, 0 < pot)%Q [5%Q]) as Hpots
    by (repeat constructor).
  assert (at4 (cumulative_cfvs (toy_object toy 0 3)) 0 0 0 1
          = Some (100 # 25)%Q) as Hv by (vm_compute; reflexivity).
  split; [exact Hinit|]. split; [exact Hall|]. split; [exact Hstack|].
  split; [exact Hpots|]. split; [exact Hv|].
  exact (@accumulated_values_bound toy _ _ _ _ _ _ _ _
           Hinit Hall Hstack Hpots _ _ _ _ _ Hv).
Defined.

(** ** The shape of the array returned *)








(** ** Reading the accumulator between calls *)

(** A call on an object that differs in the accumulator only returns the
    same array, and leaves objects that differ in the accumulator only. *)
Lemma evaluate_ranges_accumulator_blind `{Collaborators} a cn cc ranges a' out :
  evaluate_ranges a ranges = Some (a', out) →
  ∃ cn' cc',
    evaluate_ranges
      (update a (iter a) (next_round_inputs a) (next_round_values a)
         (current_round_inputs a) (current_round_values a) cn cc) ranges
    = Some (update a' (iter a') (next_round_inputs a') (next_round_values a')
              (current_round_inputs a') (current_round_values a') cn' cc',
            out).
Proof.
  rewrite !evaluate_ranges_eq.
  change (batch_size (update a _ _ _ _ _ _ _)) with (batch_size a).
  destruct (has_shape3 _ _ _ ranges); [|done].
  change (neural_network (call_vars (update a (iter a) (next_round_inputs a)
            (next_round_values a) (current_round_inputs a)
            (current_round_values a) cn cc)))
    with (neural_network (call_vars a)).
  destruct (neural_network (call_vars a)) as [nn|]; [|done]. simpl.
  destruct (max_values (pot_sizes a)) as [mv|]; [|done]. simpl.
  intros [= <- <-]. eexists _, _. reflexivity.
Qed.

Lemma evaluate_all_accumulator_blind `{Collaborators} rs : ∀ a cn cc a' outs,
  evaluate_all a rs = Some (a', outs) →
  ∃ cn' cc',
    evaluate_all
      (update a (iter a) (next_round_inputs a) (next_round_values a)
         (current_round_inputs a) (current_round_values a) cn cc) rs
    = Some (update a' (iter a') (next_round_inputs a') (next_round_values a')
              (current_round_inputs a') (current_round_values a') cn' cc',
            outs).
Proof.
  induction rs as [|r rs IH]; intros a cn cc a' outs; simpl.
  - intros [= <- <-]. by exists cn, cc.
  - destruct (evaluate_ranges a r) as [[a1 o]|] eqn:E1; [|done].
    simpl. destruct (evaluate_all a1 rs) as [[a2 os]|] eqn:E2; [|done].
    simpl. intros [= <- <-].
    destruct (evaluate_ranges_accumulator_blind a cn cc r a1 o E1)
      as (cn1 & cc1 & ->). simpl.
    destruct (IH a1 cn1 cc1 a2 os E2) as (cn2 & cc2 & ->). simpl.
    by exists cn2, cc2.
Qed.

(** X13.  Reading the accumulator back does not disturb the calls that
    follow: a sequence of calls that completes on an object completes on
    the object left by [get_stored_cfvs_of_all_next_round_boards] as
    well, returns the same arrays, and ends with the same counter,
    buffers and setup; only the accumulator may differ. *)
Theorem calls_after_reading `{Collaborators} self self1 ref rs selfA outs :
  get_stored_cfvs_of_all_next_round_boards self = Some (self1, ref) →
  evaluate_all self rs = Some (selfA, outs) →
  ∃ selfB,
    evaluate_all self1 rs = Some (selfB, outs) ∧
    iter selfB = iter selfA ∧
    setup_fields selfB = setup_fields selfA ∧
    next_round_inputs selfB = next_round_inputs selfA ∧
    next_round_values selfB = next_round_values selfA ∧
    current_round_inputs selfB = current_round_inputs selfA ∧
    current_round_values selfB = current_round_values selfA.
Proof.
  rewrite get_stored_eq. intros [= <- _] Hall.
  destruct (evaluate_all_accumulator_blind rs self
              (replace_zeros (cumulative_norm self))
              (div_rows_total (cumulative_cfvs self)
                 (replace_zeros (cumulative_norm self))) selfA outs Hall)
    as (cn & cc & ->).
  eexists. split; [reflexivity|]. done.
Qed.

Lemma calls_after_reading_witness :
  ∃ self1,
    get_stored_cfvs_of_all_next_round_boards (toy_object toy 0 2)
      = Some (self1, cumulative_cfvs_ref) ∧
    @evaluate_all toy (toy_object toy 0 2) [pure_ranges]
      = Some ((toy_result toy 0 2 pure_ranges).1,
              [(toy_result toy 0 2 pure_ranges).2]) ∧
    ∃ selfB,
      @evaluate_all toy self1 [pure_ranges]
        = Some (selfB, [(toy_result toy 0 2 pure_ranges).2]) ∧
      iter selfB = 3%Z.
Proof.
  pose proof (get_stored_eq (toy_object toy 0 2)) as Hget.
  assert (@evaluate_all toy (toy_object toy 0 2) [pure_ranges]
          = Some ((toy_result toy 0 2 pure_ranges).1,
                  [(toy_result toy 0 2 pure_ranges).2])) as Hall
    by (vm_compute; reflexivity).
  eexists. split; [exact Hget|]. split; [exact Hall|].
  destruct (@calls_after_reading toy _ _ _ _ _ _ Hget Hall)
    as (selfB & HB & Hit & _).
  exists selfB. split; [exact HB|]. rewrite Hit. vm_compute. reflexivity.
Defined.
